(** * calc-inv: the investment calculator of [src/App.jsx]

    A shallow embedding of the calculation behind the form of [App.jsx]:
    the [MoneyDataSchema] validators, the two rate-table fetchers
    [fetchIPCARateReal] and [fetchCDIRateReal], and the three branches of
    [calculate] (prefixado, ipca+, CDI) together with the tax step.

    Number model.  A JavaScript Number is modelled by [num]: an exact
    rational kept in lowest terms, the two infinities, or NaN.  The
    arithmetic follows IEEE 754 on the special values (0/0 = NaN,
    x/0 = +-Infinity, Infinity - Infinity = NaN, NaN is absorbing and
    compares false with everything).  Binary64 rounding, overflow and the
    sign of zero are not modelled: every finite result is the exact
    rational one, that is, the value of the expression the code evaluates
    before any rounding.

    The theorems are stated with that in mind.  An amount is given as the
    expression that the code or the specification evaluates.  An order
    between amounts takes the finiteness of the amounts as a hypothesis and
    is stated only where rounding to nearest keeps it; nothing is claimed
    that needs a result to be exact, such as a strict increase. *)

From Stdlib Require Import QArith Qabs Qround Qpower Lqa Lia Bool Ascii String.
From stdpp Require Import base option list strings gmap fin_maps.

Local Open Scope Q_scope.

(** ** Numbers *)

Module Num.

Inductive num : Type :=
| Fin (q : Q)
| PInf
| NInf
| NaN.

(** A finite result, in lowest terms. *)
Definition fin (q : Q) : num := Fin (Qred q).

Definition of_Z (z : Z) : num := Fin (inject_Z z).
Definition of_nat (n : nat) : num := of_Z (Z.of_nat n).

Definition inf_of (positive : bool) : num := if positive then PInf else NInf.

(** Sign test used by [*] and [/] on the infinities ([+0] stands for every
    zero). *)
Definition nonneg (x : num) : bool :=
  match x with
  | Fin q => Qle_bool 0 q
  | PInf => true
  | NInf | NaN => false
  end.

Definition same_sign (x y : num) : bool := Bool.eqb (nonneg x) (nonneg y).

(** [x + y] *)
Definition add (x y : num) : num :=
  match x, y with
  | NaN, _ | _, NaN => NaN
  | Fin a, Fin b => fin (a + b)
  | PInf, NInf | NInf, PInf => NaN
  | PInf, _ | _, PInf => PInf
  | NInf, _ | _, NInf => NInf
  end.

(** unary [-x] *)
Definition neg (x : num) : num :=
  match x with
  | Fin a => fin (- a)
  | PInf => NInf
  | NInf => PInf
  | NaN => NaN
  end.

(** [x - y] *)
Definition sub (x y : num) : num :=
  match x, y with
  | NaN, _ | _, NaN => NaN
  | Fin a, Fin b => fin (a - b)
  | PInf, PInf | NInf, NInf => NaN
  | PInf, _ | _, NInf => PInf
  | NInf, _ | _, PInf => NInf
  end.

(** [x * y] *)
Definition mul (x y : num) : num :=
  match x, y with
  | NaN, _ | _, NaN => NaN
  | Fin a, Fin b => fin (a * b)
  | Fin a, _ => if Qeq_bool a 0 then NaN else inf_of (same_sign x y)
  | _, Fin b => if Qeq_bool b 0 then NaN else inf_of (same_sign x y)
  | _, _ => inf_of (same_sign x y)
  end.

(** [x / y] *)
Definition div (x y : num) : num :=
  match x, y with
  | NaN, _ | _, NaN => NaN
  | Fin a, Fin b =>
      if Qeq_bool b 0
      then (if Qeq_bool a 0 then NaN else inf_of (nonneg x))
      else fin (a / b)
  | Fin _, _ => Fin 0
  | _, Fin _ => inf_of (same_sign x y)
  | _, _ => NaN
  end.

(** Exact power of a rational by a natural exponent. *)
Fixpoint Qpow (q : Q) (n : nat) : Q :=
  match n with
  | O => 1
  | S k => q * Qpow q k
  end.

(** [Math.pow(x, n)] for an exponent that is a natural number: the result
    is 1 for exponent 0 whatever the base, NaN for a NaN base otherwise. *)
Definition pow (x : num) (n : nat) : num :=
  match n with
  | O => Fin 1
  | S _ =>
      match x with
      | Fin a => fin (Qpow a n)
      | PInf => PInf
      | NInf => if Nat.even n then PInf else NInf
      | NaN => NaN
      end
  end.

(** [x > y], [x <= y]: false as soon as one side is NaN. *)
Definition ltb (x y : num) : bool :=
  match x, y with
  | NaN, _ | _, NaN => false
  | Fin a, Fin b => negb (Qle_bool b a)
  | _, NInf | PInf, _ => false
  | NInf, _ | _, PInf => true
  end.


Definition gtb (x y : num) : bool := ltb y x.

(** ToBoolean on a Number: [0] and [NaN] are falsy. *)
Definition truthy (x : num) : bool :=
  match x with
  | Fin a => negb (Qeq_bool a 0)
  | PInf | NInf => true
  | NaN => false
  end.


End Num.

Import Num.

Declare Scope num_scope.
Delimit Scope num_scope with num.
Bind Scope num_scope with num.
Infix "+" := add : num_scope.
Infix "-" := sub : num_scope.
Infix "*" := mul : num_scope.
Infix "/" := div : num_scope.

Arguments add : simpl never.
Arguments sub : simpl never.
Arguments mul : simpl never.
Arguments div : simpl never.
Arguments pow : simpl never.
Arguments fin : simpl never.

(** ** Strings

    The form holds its fields as strings.  The functions below work on the
    list of characters of a string; all characters that matter here are
    ASCII. *)

Local Open Scope char_scope.

Definition chars (s : string) : list ascii := list_ascii_of_string s.

Definition is_digit (c : ascii) : bool :=
  (48 <=? nat_of_ascii c)%nat && (nat_of_ascii c <=? 57)%nat.

Definition digit_value (c : ascii) : Z := Z.of_nat (nat_of_ascii c) - 48.

(** [val.replace(/\./g, '')]: every dot is removed. *)
Fixpoint remove_dots (s : list ascii) : list ascii :=
  match s with
  | [] => []
  | c :: s' => if Ascii.eqb c "." then remove_dots s' else c :: remove_dots s'
  end.

(** [val.replace(',', '.')]: a string pattern replaces its first occurrence
    only. *)
Fixpoint comma_to_dot (s : list ascii) : list ascii :=
  match s with
  | [] => []
  | c :: s' => if Ascii.eqb c "," then "." :: s' else c :: comma_to_dot s'
  end.

(** Value of a sequence of decimal digits, most significant first. *)
Definition decimal (ds : list ascii) : Z :=
  fold_left (fun acc c => 10 * acc + digit_value c)%Z ds 0%Z.

(** Splits at the first dot: the part before it and, when there is a dot,
    the part after it. *)
Fixpoint split_dot (s : list ascii) : list ascii * option (list ascii) :=
  match s with
  | [] => ([], None)
  | c :: s' =>
      if Ascii.eqb c "." then ([], Some s')
      else let '(a, b) := split_dot s' in (c :: a, b)
  end.

(** [Number(text)] on the unsigned decimal literals without exponent, which
    is the fragment the schema lets through: the empty string is 0;
    [digits], [digits.], [.digits] and [digits.digits] have their decimal
    value; a lone dot, a second dot or any other character gives NaN.
    (Signs, exponents, surrounding white space, hexadecimal literals and
    [Infinity], which [Number] also reads, are outside this fragment.) *)
Definition Number (text : list ascii) : num :=
  let '(ip, fp) := split_dot text in
  let fp' := default [] fp in
  if forallb is_digit ip && forallb is_digit fp' then
    match ip, fp' with
    | [], [] => match fp with None => Fin 0 | Some _ => NaN end
    | _, _ =>
        fin (inject_Z (decimal ip)
             + inject_Z (decimal fp') / inject_Z (10 ^ Z.of_nat (length fp')))
    end
  else NaN.

(** ** Regular expressions

    The patterns of the schema use digits, literal characters,
    concatenation, optional parts, bounded repetition and the star, anchored
    at both ends; [test] decides a whole-string match by derivatives. *)

Module Regex.

Inductive regex : Type :=
| Void
| Eps
| Chr (c : ascii)
| Digit
| Cat (r1 r2 : regex)
| Alt (r1 r2 : regex)
| Star (r : regex).

(** [r?] and [r{n}], [r{0,n}], [r{1,n}], [r+] *)
Definition Opt (r : regex) : regex := Alt r Eps.

Fixpoint Rep (n : nat) (r : regex) : regex :=
  match n with
  | O => Eps
  | S k => Cat r (Rep k r)
  end.

Fixpoint UpTo (n : nat) (r : regex) : regex :=
  match n with
  | O => Eps
  | S k => Opt (Cat r (UpTo k r))
  end.

Definition Plus (r : regex) : regex := Cat r (Star r).

(** The language of a pattern. *)
Inductive matches : regex -> list ascii -> Prop :=
| m_eps : matches Eps []
| m_chr c : matches (Chr c) [c]
| m_digit c : is_digit c = true -> matches Digit [c]
| m_cat r1 r2 s1 s2 :
    matches r1 s1 -> matches r2 s2 -> matches (Cat r1 r2) (s1 ++ s2)
| m_alt_l r1 r2 s : matches r1 s -> matches (Alt r1 r2) s
| m_alt_r r1 r2 s : matches r2 s -> matches (Alt r1 r2) s
| m_star_nil r : matches (Star r) []
| m_star_app r s1 s2 :
    matches r s1 -> matches (Star r) s2 -> matches (Star r) (s1 ++ s2).

Fixpoint nullable (r : regex) : bool :=
  match r with
  | Void | Chr _ | Digit => false
  | Eps | Star _ => true
  | Cat r1 r2 => nullable r1 && nullable r2
  | Alt r1 r2 => nullable r1 || nullable r2
  end.

Fixpoint deriv (c : ascii) (r : regex) : regex :=
  match r with
  | Void | Eps => Void
  | Chr c' => if Ascii.eqb c c' then Eps else Void
  | Digit => if is_digit c then Eps else Void
  | Cat r1 r2 =>
      if nullable r1
      then Alt (Cat (deriv c r1) r2) (deriv c r2)
      else Cat (deriv c r1) r2
  | Alt r1 r2 => Alt (deriv c r1) (deriv c r2)
  | Star r1 => Cat (deriv c r1) (Star r1)
  end.

(** [/^r$/.test(s)] *)
Fixpoint test (r : regex) (s : list ascii) : bool :=
  match s with
  | [] => nullable r
  | c :: s' => test (deriv c r) s'
  end.

End Regex.

Import Regex.

Local Open Scope string_scope.

(** ** The form schema ([MoneyDataSchema])

    Each field is [z.string().regex(re, message).transform(f)], possibly
    followed by [.refine(p, {message})].  A field is either accepted with
    its transformed value or rejected with the message of the check that
    failed first. *)

Inductive parsed (A : Type) : Type :=
| Valid (a : A)
| Invalid (message : string).
Arguments Valid {A} a.
Arguments Invalid {A} message.

(** [/^\d{1,3}(\.\d{3})*,\d{2}$/] *)
Definition currency_re : regex :=
  Cat (Cat Digit (UpTo 2 Digit))
      (Cat (Star (Cat (Chr ".") (Rep 3 Digit)))
           (Cat (Chr ",") (Rep 2 Digit))).

(** [/^\d*(,\d{0,2})?$/] *)
Definition taxa_re : regex :=
  Cat (Star Digit) (Opt (Cat (Chr ",") (UpTo 2 Digit))).

(** [/^\d+$/] *)
Definition periodo_re : regex := Plus Digit.

(** [(val) => Number(val.replace(/\./g, '').replace(',', '.'))] *)
Definition to_number (val : string) : num :=
  Number (comma_to_dot (remove_dots (chars val))).

(** [(val) => val > 0] *)
Definition positive (val : num) : bool := gtb val (Fin 0).

Definition aporteInicial_field (val : string) : parsed num :=
  if test currency_re (chars val) then Valid (to_number val)
  else Invalid "Formato inválido. Use R$ 0,00".

Definition aporteMensal_field (val : string) : parsed num :=
  if test currency_re (chars val) then
    if positive (to_number val) then Valid (to_number val)
    else Invalid "O aporte mensal deve ser maior que zero"
  else Invalid "Formato inválido. Use R$ 0,00".

Definition taxa_field (val : string) : parsed num :=
  if test taxa_re (chars val) then
    if positive (to_number val) then Valid (to_number val)
    else Invalid "A taxa deve ser maior que zero"
  else Invalid "A taxa deve ser um número e pode conter uma vírgula".

Definition periodo_field (val : string) : parsed num :=
  if test periodo_re (chars val) then
    if positive (Number (chars val)) then Valid (Number (chars val))
    else Invalid "O período deve ser maior que zero"
  else Invalid "O período deve ser um número inteiro positivo".

(** ** Rate tables

    One record of the forecast service.  [Data] is the instant that
    [new Date(item.Data)] denotes, [DataReferencia] the reference year, which
    is the property key of the table. *)

Record item : Type := {
  Indicador : string;
  Data : Z;
  DataReferencia : Z;
  Media : num
}.

(** The misspelled property read by the CDI branch: no record has it, so
    the read gives [undefined]. *)
Definition Medi (_ : item) : option num := None.

(** ToNumber on a property read: [undefined] becomes NaN. *)
Definition ToNumber (v : option num) : num := default NaN v.

(** The loop shared by the two fetchers: per reference year, the record with
    the latest [Data], stored through [keep]. *)
Definition collect (keep : item -> item) (value : list item) : gmap Z item :=
  fold_left
    (fun results it =>
       let ano := DataReferencia it in
       match results !! ano with
       | Some atual =>
           if (Data atual <? Data it)%Z then <[ano := keep it]> results
           else results
       | None => <[ano := keep it]> results
       end)
    value ∅.

(** [parseFloat(x.toFixed(3))]: the nearest multiple of 1/1000, a tie going
    away from zero; values of magnitude 1e21 or more are printed in full.
    [x] is here the exact product of [scaled]; in the source the product
    has been rounded to binary64 first, which decides the last digit when
    the exact product is a tie or within rounding of one. *)
Definition toFixed3 (x : num) : num :=
  match x with
  | Fin q =>
      if Qle_bool (inject_Z (10 ^ 21)) (Qabs q) then x
      else
        let n := Qfloor (Qabs q * 1000 + (1 # 2)) in
        fin ((if Qle_bool 0 q then inject_Z n else - inject_Z n) / 1000)
  | _ => x
  end.

(** [{ ...item, Media: parseFloat((item.Media * 0.98).toFixed(3)) }] *)
Definition scaled (it : item) : item :=
  {| Indicador := Indicador it;
     Data := Data it;
     DataReferencia := DataReferencia it;
     Media := toFixed3 (Media it * fin 0.98) |}.

(** ** The component state and its effects

    [calculate] reads the clock and the network, may throw, and ends by
    calling [setResult] and [setStep].  A computation takes the state of the
    component and returns the new state with either a value or the exception
    that stopped it. *)

Record Result : Type := {
  montanteBruto : num;
  montanteLiquido : num
}.

Record App : Type := {
  step : nat;
  result : option Result;
  console : list string
}.

Inductive exn : Type :=
| TypeError (message : string).

(** The two exceptions [calculate] can run into. *)
Definition keys_undefined : exn :=
  TypeError "Cannot convert undefined or null to object".

Definition undefined_Media : exn :=
  TypeError "Cannot read properties of undefined (reading 'Media')".

Definition M (A : Type) : Type := App -> App * (A + exn).

#[global] Instance M_ret : MRet M := fun A a st => (st, inl a).

#[global] Instance M_bind : MBind M := fun A B k m st =>
  match m st with
  | (st', inl a) => k a st'
  | (st', inr e) => (st', inr e)
  end.

Definition throw {A : Type} (e : exn) : M A := fun st => (st, inr e).

Definition setResult (r : Result) : M unit := fun st =>
  ({| step := step st; result := Some r; console := console st |}, inl tt).

Definition setStep (f : nat -> nat) : M unit := fun st =>
  ({| step := f (step st); result := result st; console := console st |},
   inl tt).

Definition console_error (line : string) : M unit := fun st =>
  ({| step := step st; result := result st;
      console := console st ++ [line] |}, inl tt).

(** [for (let i = 1; i <= count; i++) acc = body(i, acc)], started at [i]. *)
Fixpoint for_loop {S : Type} (body : nat -> S -> M S) (i count : nat) (acc : S)
  : M S :=
  match count with
  | O => mret acc
  | Datatypes.S count' =>
      acc' ← body i acc; for_loop body (Datatypes.S i) count' acc'
  end.

(** ** The environment: clock and forecast service *)

Inductive indicador : Type := IPCA | Selic.

(** [getFullYear()] and [getMonth()] (0 to 11) of [new Date()]. *)
Record date : Type := {
  fullYear : Z;
  month : Z
}.

(** [axios_get] is the outcome of the request for an indicator: the
    [data.value] array, or [None] when the request (or reading
    [data.value]) throws. *)
Record Env : Type := {
  today : date;
  axios_get : indicador -> option (list item)
}.

(** Year of [today] moved [i] months ahead by [setMonth(getMonth() + i)].
    A day-of-month overflow spills into the next month; December having 31
    days, it never spills over the end of a year. *)
Definition ano_apos (today : date) (i : nat) : Z :=
  (fullYear today + (month today + Z.of_nat i) / 12)%Z.

(** [fetchIPCARateReal] (lines 17-38): [undefined] when the request
    throws, the error being logged and dropped. *)
Definition fetchIPCARateReal (env : Env) : M (option (gmap Z item)) :=
  match axios_get env IPCA with
  | Some value => mret (Some (collect id value))
  | None => _ ← console_error "Erro ao buscar IPCA:"; mret None
  end.

(** [fetchCDIRateReal] (lines 40-64) *)
Definition fetchCDIRateReal (env : Env) : M (option (gmap Z item)) :=
  match axios_get env Selic with
  | Some value => mret (Some (collect scaled value))
  | None => _ ← console_error "Erro ao buscar IPCA:"; mret None
  end.

(** [Object.keys(o).map(Number)]: throws on [undefined]. *)
Definition Object_keys (o : option (gmap Z item)) : M (list Z) :=
  match o with
  | Some table => mret (map_to_list table).*1
  | None => throw keys_undefined
  end.

(** [Math.max(...keys)]: [-Infinity] for no argument. *)
Definition Math_max (keys : list Z) : num :=
  foldr (fun k acc => if ltb acc (of_Z k) then of_Z k else acc) NInf keys.

(** [table[key]] for a Number key: the property named by the key's decimal
    string, which only an integer can match. *)
Definition prop (table : gmap Z item) (key : num) : option item :=
  match key with
  | Fin q =>
      if (Zpos (Qden (Qred q)) =? 1)%Z then table !! Qnum (Qred q) else None
  | _ => None
  end.

(** [o.Media] on a possibly undefined [o]. *)
Definition get_Media (o : option item) : M num :=
  match o with
  | Some it => mret (Media it)
  | None => throw undefined_Media
  end.

(** ** [calculate] (lines 244-367)

    [getMoneyValues()] gives the fields of the form.  [periodo] is a string
    of digits (the form is submitted through [handleMoneySubmit], see
    below); every use of it is numeric, so it is held as the natural number
    it denotes. *)

Record MoneyValues : Type := {
  tipoDeTaxa : string;
  periodo : nat;
  periodoTipo : string;
  aporteInicial : string;
  aporteMensal : string;
  taxa : string;
  isentoDeImposto : string;
  vencimento : string
}.

Local Open Scope num_scope.

(** lines 256-260 *)
Definition meses_de (v : MoneyValues) : nat :=
  if String.eqb (periodoTipo v) "ano" then (periodo v * 12)%nat else periodo v.

(** lines 262-265 *)
Definition taxaValue_de (v : MoneyValues) : num :=
  if String.eqb (tipoDeTaxa v) "cdi" then Fin 0 else to_number (taxa v).

(** lines 273-274 *)
Definition converter_taxa (vencimento : string) (taxaValue : num) : num :=
  if String.eqb vencimento "meses" then taxaValue / Fin 100
  else taxaValue / Fin 12 / Fin 100.

(** lines 277-280: the closed form of the prefixado branch.  On finite
    arguments the value is the exact one; the binary64 result of the source
    is that value rounded at each operation, or Infinity or NaN where
    [Math.pow] overflows. *)
Definition bruto_prefixado
    (aporteInicialValue aporteMensalValue covertedTaxa : num) (meses : nat)
  : num :=
  aporteInicialValue * pow (Fin 1 + covertedTaxa) meses
  + aporteMensalValue
    * ((pow (Fin 1 + covertedTaxa) meses - Fin 1) / covertedTaxa).

(** line 282 *)
Definition investido_prefixado
    (aporteInicialValue aporteMensalValue : num) (meses : nat) : num :=
  aporteInicialValue + aporteMensalValue * of_nat meses.

(** lines 285-288, 321-322 and 357-358: the tax step, the same expression
    in the three branches *)
Definition liquido_de (isentoDeImposto : string) (montante rendimento : num)
  : num :=
  if String.eqb isentoDeImposto "sim" then montante
  else montante - rendimento * fin 0.15.

(** lines 304-316: one month of the ipca+ loop on
    [(montante, totalInvestido)], in exact arithmetic as everywhere *)
Definition ipca_mes (today : date) (ipcaData : gmap Z item) (anoFinal : num)
    (covertedTaxa aporteMensalValue : num) (i : nat) (acc : num * num)
  : M (num * num) :=
  let '(montante, totalInvestido) := acc in
  let ano := ano_apos today i in
  ipcaAno ← match ipcaData !! ano with
            | Some it => mret (Media it)
            | None => get_Media (prop ipcaData anoFinal)
            end;
  let ipcaMes := ipcaAno / Fin 12 / Fin 100 in
  let taxaReal := covertedTaxa in
  let taxaEfetiva := (Fin 1 + taxaReal) * (Fin 1 + ipcaMes) - Fin 1 in
  mret ((montante + aporteMensalValue) * (Fin 1 + taxaEfetiva),
        totalInvestido + aporteMensalValue).

(** lines 338-352: one month of the CDI loop *)
Definition cdi_mes (today : date) (cdi : gmap Z item) (anoFinal : num)
    (taxaValue aporteMensalValue : num) (i : nat) (acc : num * num)
  : M (num * num) :=
  let '(montante, totalInvestido) := acc in
  let ano := ano_apos today i in
  ipcaAno ← match cdi !! ano with
            | Some it =>
                if truthy (Media it)
                then mret (ToNumber (Medi it) * fin 1.2)
                else x ← get_Media (prop cdi anoFinal); mret (x * fin 1.2)
            | None => x ← get_Media (prop cdi anoFinal); mret (x * fin 1.2)
            end;
  let ipcaMes := ipcaAno / Fin 12 / Fin 100 in
  let taxaReal := taxaValue / Fin 100 / Fin 12 in
  let taxaEfetiva := (Fin 1 + taxaReal) * (Fin 1 + ipcaMes) - Fin 1 in
  mret ((montante + aporteMensalValue) * (Fin 1 + taxaEfetiva),
        totalInvestido + aporteMensalValue).

Definition calculate (env : Env) (v : MoneyValues) : M unit :=
  let meses := meses_de v in
  let taxaValue := taxaValue_de v in
  let aporteInicialValue := to_number (aporteInicial v) in
  let aporteMensalValue := to_number (aporteMensal v) in
  let covertedTaxa := converter_taxa (vencimento v) taxaValue in
  _ ← (if String.eqb (tipoDeTaxa v) "prefixado" then
         let montanteBruto :=
           bruto_prefixado aporteInicialValue aporteMensalValue covertedTaxa
             meses in
         let totalInvestido :=
           investido_prefixado aporteInicialValue aporteMensalValue meses in
         let rendimento := montanteBruto - totalInvestido in
         let liquido :=
           liquido_de (isentoDeImposto v) montanteBruto rendimento in
         setResult {| montanteBruto := montanteBruto;
                      montanteLiquido := liquido |}
       else if String.eqb (tipoDeTaxa v) "ipca+" then
         ipcaData ← fetchIPCARateReal env;
         keys ← Object_keys ipcaData;
         let anoFinal := Math_max keys in
         '(montante, totalInvestido) ←
           for_loop
             (ipca_mes (today env) (default ∅ ipcaData) anoFinal covertedTaxa
                aporteMensalValue)
             1 meses (aporteInicialValue, aporteInicialValue);
         let rendimento := montante - totalInvestido in
         let liquido := liquido_de (isentoDeImposto v) montante rendimento in
         setResult {| montanteBruto := montante; montanteLiquido := liquido |}
       else
         cdi ← fetchCDIRateReal env;
         keys ← Object_keys cdi;
         let anoFinal := Math_max keys in
         '(montante, totalInvestido) ←
           for_loop
             (cdi_mes (today env) (default ∅ cdi) anoFinal taxaValue
                aporteMensalValue)
             1 meses (aporteInicialValue, aporteInicialValue);
         let rendimento := montante - totalInvestido in
         let liquido := liquido_de (isentoDeImposto v) montante rendimento in
         setResult {| montanteBruto := montante; montanteLiquido := liquido |});
  setStep (fun e => (e + 1)%nat).

(** ** Submission ([handleMoneySubmit(() => calculate())], line 473)

    The form's fields as typed; the handler runs [calculate] only when the
    four schema fields are accepted, and otherwise leaves the state as it
    is. *)

Record FormValues : Type := {
  f_tipoDeTaxa : string;
  f_periodo : string;
  f_periodoTipo : string;
  f_aporteInicial : string;
  f_aporteMensal : string;
  f_taxa : string;
  f_isentoDeImposto : string;
  f_vencimento : string
}.

Definition is_valid {A : Type} (p : parsed A) : bool :=
  match p with Valid _ => true | Invalid _ => false end.

Definition MoneyDataSchema (f : FormValues) : bool :=
  is_valid (aporteInicial_field (f_aporteInicial f))
  && is_valid (aporteMensal_field (f_aporteMensal f))
  && is_valid (taxa_field (f_taxa f))
  && is_valid (periodo_field (f_periodo f)).

Definition getMoneyValues (f : FormValues) : MoneyValues :=
  {| tipoDeTaxa := f_tipoDeTaxa f;
     periodo := Z.to_nat (decimal (chars (f_periodo f)));
     periodoTipo := f_periodoTipo f;
     aporteInicial := f_aporteInicial f;
     aporteMensal := f_aporteMensal f;
     taxa := f_taxa f;
     isentoDeImposto := f_isentoDeImposto f;
     vencimento := f_vencimento f |}.

Definition handleMoneySubmit (env : Env) (f : FormValues) : M unit :=
  if MoneyDataSchema f then calculate env (getMoneyValues f) else mret tt.


(** ** The specification's wording

    Definitions that follow the specification rather than the code; the
    theorems below compare them with [calculate]. *)

(** The monthly rate of a nominal percentage. *)
Definition monthly_rate (vencimento : string) (nominalRate : Q) : Q :=
  (if String.eqb vencimento "meses" then nominalRate / 100
   else nominalRate / 100 / 12)%Q.

(** The same on Numbers, for the real spread of the indexed regimes. *)
Definition spec_real_monthly_rate (vencimento : string) (nominalRate : num)
  : num :=
  if String.eqb vencimento "meses" then nominalRate / Fin 100
  else nominalRate / Fin 100 / Fin 12.

(** The unit of a duration.  The select of the form holds ['mes'] for
    months and ['ano'] for years (lines 550-553). *)
Inductive PeriodUnit : Type := Month | Year.

Definition periodoTipo_of (periodUnit : PeriodUnit) : string :=
  match periodUnit with
  | Month => "mes"
  | Year => "ano"
  end.

(** [totalMonths = periodUnit == Year ? periodCount*12 : periodCount] *)
Definition totalMonths (periodCount : nat) (periodUnit : PeriodUnit) : nat :=
  match periodUnit with
  | Year => (periodCount * 12)%nat
  | Month => periodCount
  end.


(** The month after a month of the calendar: January follows December, in
    the next year. *)
Definition next_month (d : date) : date :=
  if (month d =? 11)%Z then {| fullYear := fullYear d + 1; month := 0 |}
  else {| fullYear := fullYear d; month := month d + 1 |}.

(** The calendar year of today + [i] months. *)
Definition spec_calendar_year (today : date) (i : nat) : Z :=
  fullYear (Nat.iter i next_month today).

(** [it] is the record of the answer that a fetcher keeps for the year
    [y]: the one with the latest [Data] among the records of that year, and
    the first of them in the answer when several have that [Data]. *)
Definition first_latest (value : list item) (y : Z) (it : item) : Prop :=
  exists before after : list item,
    value = (before ++ it :: after)%list
    /\ DataReferencia it = y
    /\ (forall it', it' ∈ before -> DataReferencia it' = y ->
                    (Data it' < Data it)%Z)
    /\ (forall it', it' ∈ after -> DataReferencia it' = y ->
                    (Data it' <= Data it)%Z).

(** The latest year of a table. *)
Definition is_max_year (table : gmap Z item) (y : Z) : Prop :=
  is_Some (table !! y) /\ forall k, is_Some (table !! k) -> (k <= y)%Z.

(** The rate of a year, or the latest known one. *)
Definition spec_table_rate (table : gmap Z item) (latest : num) (year : Z)
  : num :=
  match table !! year with
  | Some it => Media it
  | None => latest
  end.

(** The balance after the months [i], [i+1], ..., [count] of them. *)
Fixpoint spec_balance (table : gmap Z item) (latest : num) (today : date)
    (realMonthlyRate monthlyContribution : num) (i count : nat) (balance : num)
  : num :=
  match count with
  | O => balance
  | S count' =>
      let tableRate :=
        spec_table_rate table latest (spec_calendar_year today i) in
      let monthlyIndexRate := tableRate / Fin 100 / Fin 12 in
      let effectiveMonthlyRate :=
        (Fin 1 + realMonthlyRate) * (Fin 1 + monthlyIndexRate) - Fin 1 in
      spec_balance table latest today realMonthlyRate monthlyContribution
        (S i) count'
        ((balance + monthlyContribution) * (Fin 1 + effectiveMonthlyRate))
  end.

Definition digits (s : list ascii) : Prop :=
  Forall (fun c => is_digit c = true) s.

(** [head.ggg.ggg,cc]: one to three digits, groups of a dot and three
    digits, a comma and two digits. *)
Definition currency_text (s head : list ascii) (groups : list (list ascii))
    (c1 c2 : ascii) : Prop :=
  s = (head ++ concat (map (cons "."%char) groups) ++ [","%char; c1; c2])%list
  /\ (1 <= length head <= 3)%nat
  /\ digits head
  /\ Forall (fun g => length g = 3%nat /\ digits g) groups
  /\ digits [c1; c2].

(** ** A pure reading of [calculate]

    The loops only read the table, so a month either yields a rate or
    throws; [projecao] is what [calculate] computes before the tax step and
    [conclui] what it does with it.  [calculate_conclui] below proves the two
    readings equal. *)

(** The rate the ipca+ loop reads for a year, [None] when the read throws. *)
Definition ipca_rate (t : gmap Z item) (anoFinal : num) (ano : Z) : option num :=
  match t !! ano with
  | Some it => Some (Media it)
  | None => Media <$> prop t anoFinal
  end.

(** The same for the CDI loop. *)
Definition cdi_rate (t : gmap Z item) (anoFinal : num) (ano : Z) : option num :=
  match t !! ano with
  | Some it =>
      if truthy (Media it) then Some (ToNumber (Medi it) * fin 1.2)
      else (fun it' => Media it' * fin 1.2) <$> prop t anoFinal
  | None => (fun it' => Media it' * fin 1.2) <$> prop t anoFinal
  end.

(** One month of compounding at the yearly index rate [ipcaAno]. *)
Definition capitaliza (taxaReal aporteMensalValue ipcaAno montante : num) : num :=
  (montante + aporteMensalValue)
  * (Fin 1 + ((Fin 1 + taxaReal) * (Fin 1 + ipcaAno / Fin 12 / Fin 100) - Fin 1)).

(** The months [i], [i+1], ... of a loop whose yearly rate is [rate]. *)
Fixpoint meses_loop (rate : Z -> option num) (today : date)
    (taxaReal aporteMensalValue : num) (i count : nat) (acc : num * num)
  : option (num * num) :=
  match count with
  | O => Some acc
  | S count' =>
      match rate (ano_apos today i) with
      | Some x =>
          meses_loop rate today taxaReal aporteMensalValue (S i) count'
            (capitaliza taxaReal aporteMensalValue x acc.1,
             acc.2 + aporteMensalValue)
      | None => None
      end
  end.

Definition lift {A : Type} (o : option A) : M A := fun st =>
  match o with
  | Some a => (st, inl a)
  | None => (st, inr undefined_Media)
  end.

(** What an indexed branch computes from the response of the service: the
    lines it logs and either [(montante, totalInvestido)] or the exception
    that stops it. *)
Definition indexado (keep : item -> item)
    (rate : gmap Z item -> num -> Z -> option num) (response : option (list item))
    (today : date) (taxaReal aporteInicialValue aporteMensalValue : num)
    (meses : nat) : list string * (num * num + exn) :=
  match response with
  | None => (["Erro ao buscar IPCA:"], inr keys_undefined)
  | Some value =>
      let table := collect keep value in
      let anoFinal := Math_max (map_to_list table).*1 in
      match meses_loop (rate table anoFinal) today taxaReal aporteMensalValue
              1 meses (aporteInicialValue, aporteInicialValue) with
      | Some acc => ([], inl acc)
      | None => ([], inr undefined_Media)
      end
  end.

(** The part of [calculate] before the tax step. *)
Definition projecao (env : Env) (v : MoneyValues)
  : list string * (num * num + exn) :=
  let meses := meses_de v in
  let taxaValue := taxaValue_de v in
  let aporteInicialValue := to_number (aporteInicial v) in
  let aporteMensalValue := to_number (aporteMensal v) in
  let covertedTaxa := converter_taxa (vencimento v) taxaValue in
  if String.eqb (tipoDeTaxa v) "prefixado" then
    ([], inl (bruto_prefixado aporteInicialValue aporteMensalValue covertedTaxa
                meses,
              investido_prefixado aporteInicialValue aporteMensalValue meses))
  else if String.eqb (tipoDeTaxa v) "ipca+" then
    indexado id ipca_rate (axios_get env IPCA) (today env) covertedTaxa
      aporteInicialValue aporteMensalValue meses
  else
    indexado scaled cdi_rate (axios_get env Selic) (today env)
      (taxaValue / Fin 100 / Fin 12) aporteInicialValue aporteMensalValue
      meses.

(** The state and completion of [calculate] for an outcome of [projecao]. *)
Definition conclui (isentoDeImposto : string) (st : App)
    (p : list string * (num * num + exn)) : App * (unit + exn) :=
  match p with
  | (log, inl (montante, totalInvestido)) =>
      ({| step := step st + 1;
          result :=
            Some {| montanteBruto := montante;
                    montanteLiquido :=
                      liquido_de isentoDeImposto montante
                        (montante - totalInvestido) |};
          console := console st ++ log |}, inl tt)
  | (log, inr e) =>
      ({| step := step st; result := result st; console := console st ++ log |},
       inr e)
  end.

(** The same form values with another answer to the tax question. *)
Definition com_isento (v : MoneyValues) (isento : string) : MoneyValues :=
  {| tipoDeTaxa := tipoDeTaxa v;
     periodo := periodo v;
     periodoTipo := periodoTipo v;
     aporteInicial := aporteInicial v;
     aporteMensal := aporteMensal v;
     taxa := taxa v;
     isentoDeImposto := isento;
     vencimento := vencimento v |}.

(** The same form values with another period for the rate. *)
Definition com_vencimento (v : MoneyValues) (venc : string) : MoneyValues :=
  {| tipoDeTaxa := tipoDeTaxa v;
     periodo := periodo v;
     periodoTipo := periodoTipo v;
     aporteInicial := aporteInicial v;
     aporteMensal := aporteMensal v;
     taxa := taxa v;
     isentoDeImposto := isentoDeImposto v;
     vencimento := venc |}.


(** ** Sample inputs *)

(** The component on the form's step, before any calculation. *)
Definition st0 : App := {| step := 2; result := None; console := [] |}.

(** November 2026. *)
Definition hoje : date := {| fullYear := 2026; month := 10 |}.

Definition previsao (nome : string) (data ano : Z) (media : Q) : item :=
  {| Indicador := nome; Data := data; DataReferencia := ano;
     Media := fin media |}.

(** A service answering with two forecasts per indicator. *)
Definition servico : Env :=
  {| today := hoje;
     axios_get := fun ind =>
       match ind with
       | IPCA => Some [previsao "IPCA" 20 2026 4.5; previsao "IPCA" 20 2027 4]
       | Selic => Some [previsao "Selic" 20 2026 15; previsao "Selic" 20 2027 12.5]
       end |}.


(** A service whose Selic forecast for 2026 is zero. *)
Definition servico_selic_zero : Env :=
  {| today := hoje;
     axios_get := fun _ =>
       Some [previsao "Selic" 20 2026 0; previsao "Selic" 20 2027 10] |}.

(** A service that cannot be reached, and one that has no forecast. *)
Definition servico_fora : Env :=
  {| today := hoje; axios_get := fun _ => None |}.

Definition servico_vazio : Env :=
  {| today := hoje; axios_get := fun _ => Some [] |}.

Definition formulario (tipo periodo_ inicial mensal taxa_ isento venc : string)
  : FormValues :=
  {| f_tipoDeTaxa := tipo;
     f_periodo := periodo_;
     f_periodoTipo := "mes";
     f_aporteInicial := inicial;
     f_aporteMensal := mensal;
     f_taxa := taxa_;
     f_isentoDeImposto := isento;
     f_vencimento := venc |}.

(** The end-to-end scenario: 1000 at the start, 100 a month, 12% a year,
    12 months, not exempt. *)
Definition cenario : FormValues :=
  formulario "prefixado" "12" "1.000,00" "100,00" "12" "não" "ano".

(** The same form with its period counted in years. *)
Definition em_anos (f : FormValues) : FormValues :=
  {| f_tipoDeTaxa := f_tipoDeTaxa f;
     f_periodo := f_periodo f;
     f_periodoTipo := "ano";
     f_aporteInicial := f_aporteInicial f;
     f_aporteMensal := f_aporteMensal f;
     f_taxa := f_taxa f;
     f_isentoDeImposto := f_isentoDeImposto f;
     f_vencimento := f_vencimento f |}.


(** ** Formatting helpers (lines 11-15 and 66-91)

    The effects of the component rewrite the fields as the user types with
    these functions.  They work on the characters of the field. *)

Section Formatting.
Local Open Scope list_scope.
Local Open Scope char_scope.

(** [/^\(\d{2}\) \d \d{4}-\d{4}$/] *)
Definition phone_re : regex :=
  Cat (Chr "(") (Cat (Rep 2 Digit) (Cat (Chr ")") (Cat (Chr " ")
    (Cat Digit (Cat (Chr " ") (Cat (Rep 4 Digit) (Cat (Chr "-")
      (Rep 4 Digit)))))))).

(** [validatePhoneNumber] (lines 12-15) *)
Definition validatePhoneNumber (phone : list ascii) : bool :=
  test phone_re phone.

(** [s.slice(first, last)] and [s.slice(first)] for indices within the
    natural numbers. *)
Definition slice (first last : nat) (s : list ascii) : list ascii :=
  take (last - first) (drop first s).

Definition slice_from (first : nat) (s : list ascii) : list ascii :=
  drop first s.

(** [formatPhoneNumber] (lines 67-74) *)
Definition formatPhoneNumber (phone : list ascii) : list ascii :=
  let phone := filter (fun c => is_digit c = true) phone in
  let phone := if (11 <? length phone)%nat then slice 0 11 phone else phone in
  if (6 <? length phone)%nat then
    "(" :: slice 0 2 phone ++ ")" :: " " :: slice 2 3 phone ++ " "
      :: slice 3 7 phone ++ "-" :: slice_from 7 phone
  else if (2 <? length phone)%nat then
    "(" :: slice 0 2 phone ++ ")" :: " " :: slice_from 2 phone
  else phone.

(** [/,{2,}/g] replaced by [","]: every run of commas becomes one comma. *)
Fixpoint collapse_commas (s : list ascii) : list ascii :=
  match s with
  | [] => []
  | c :: s' =>
      match s' with
      | c' :: _ =>
          if Ascii.eqb c "," && Ascii.eqb c' "," then collapse_commas s'
          else c :: collapse_commas s'
      | [] => [c]
      end
  end.

(** [/^,/] replaced by [""] *)
Definition drop_leading_comma (s : list ascii) : list ascii :=
  match s with
  | c :: s' => if Ascii.eqb c "," then s' else s
  | [] => []
  end.

(** [formatTaxa] (lines 76-81) *)
Definition formatTaxa (value : list ascii) : list ascii :=
  drop_leading_comma
    (collapse_commas
       (filter (fun c => is_digit c = true \/ c = ",") value)).

(** The decimal writing of a natural number, without leading zeros. *)
Definition digit_char (d : Z) : ascii := ascii_of_nat (48 + Z.to_nat d).

Fixpoint write_decimal (fuel : nat) (n : Z) (acc : list ascii) : list ascii :=
  match fuel with
  | O => acc
  | S fuel' =>
      let acc' := digit_char (n mod 10) :: acc in
      if (n <? 10)%Z then acc' else write_decimal fuel' (n / 10) acc'
  end.

Definition decimal_digits (n : Z) : list ascii :=
  write_decimal (S (Z.to_nat (Z.log2 n))) n [].

(** [x.toFixed(2)] as text.  A finite [x] of magnitude below 1e21 is written
    with its sign, the integer part and two decimals of the nearest multiple
    of 1/100 (a tie going away from zero).  Larger magnitudes are written in
    exponent form, which is not modelled ([None]). *)
Definition toFixed2 (x : num) : option (list ascii) :=
  match x with
  | Fin q =>
      if Qle_bool (inject_Z (10 ^ 21)) (Qabs q) then None
      else
        let n := Qfloor (Qabs q * 100 + (1 # 2)) in
        let text :=
          decimal_digits (n / 100)
          ++ ["."; digit_char (n mod 100 / 10); digit_char (n mod 10)] in
        Some (if Qle_bool 0 q then text else "-" :: text)
  | PInf => Some (chars "Infinity")
  | NInf => Some (chars "-Infinity")
  | NaN => Some (chars "NaN")
  end.

(** [s.replace('.', ',')]: the first dot only. *)
Fixpoint dot_to_comma (s : list ascii) : list ascii :=
  match s with
  | [] => []
  | c :: s' => if Ascii.eqb c "." then "," :: s' else c :: dot_to_comma s'
  end.

(** [\w] *)
Definition is_word (c : ascii) : bool :=
  let n := nat_of_ascii c in
  is_digit c
  || ((65 <=? n)%nat && (n <=? 90)%nat)
  || ((97 <=? n)%nat && (n <=? 122)%nat)
  || Ascii.eqb c "_".

(** Length of the run of digits a text starts with. *)
Fixpoint digit_run (s : list ascii) : nat :=
  match s with
  | c :: s' => if is_digit c then S (digit_run s') else O
  | [] => O
  end.

(** [s.replace(/\B(?=(\d{3})+(?!\d))/g, '.')]: a dot goes in at every place
    that is not a word boundary and is followed by a run of digits whose
    length is a positive multiple of three.  [prev_word] tells whether the
    character before the place is a word character (false at the start). *)
Fixpoint group_thousands (prev_word : bool) (s : list ascii) : list ascii :=
  match s with
  | [] => []
  | c :: s' =>
      let run := digit_run s in
      if Bool.eqb prev_word (is_word c) && (0 <? run)%nat
         && (run mod 3 =? 0)%nat
      then "." :: c :: group_thousands (is_word c) s'
      else c :: group_thousands (is_word c) s'
  end.

(** [formatMoney] (lines 83-91); [parseFloat] reads a string of digits as
    [Number] does. *)
Definition formatMoney (value : list ascii) : option (list ascii) :=
  let cleanValue := filter (fun c => is_digit c = true) value in
  match cleanValue with
  | [] => Some []
  | _ =>
      numberValue ← toFixed2 (Number cleanValue / Fin 100)%num;
      Some (group_thousands false (dot_to_comma numberValue))
  end.

(** The effect on [periodo] (lines 234-242): [replace(/\D+/g, '')] *)
Definition formatPeriodo (value : list ascii) : list ascii :=
  filter (fun c => is_digit c = true) value.

End Formatting.

(** Brings a goal [Fin _ = Fin _] or [fin _ = fin _] between exact results
    down to an equation of rationals. *)
Ltac fin_eq :=
  unfold fin; f_equal; apply Qred_complete; rewrite ?Qred_correct.

(** Computes the length of a text put together from slices. *)
Ltac list_length :=
  repeat (progress
            (simpl length; rewrite ?length_app, ?length_take, ?length_drop)).

(** * Properties *)

(** ** Arithmetic of [num] *)

Section NumFacts.

Local Open Scope Q_scope.

Lemma fin_ext (a b : Q) : a == b -> fin a = fin b.
Proof. intros H. unfold fin. f_equal. by apply Qred_complete. Qed.

Lemma fin_inj (a b : Q) : fin a = fin b -> a == b.
Proof.
  unfold fin. intros H. injection H as H.
  rewrite <- (Qred_correct a), <- (Qred_correct b). by rewrite H.
Qed.

Lemma Qeq_bool_false (a b : Q) : ~ a == b -> Qeq_bool a b = false.
Proof.
  intros H. destruct (Qeq_bool a b) eqn:E; [|done].
  by apply Qeq_bool_eq in E.
Qed.

Lemma Qeq_bool_true (a b : Q) : a == b -> Qeq_bool a b = true.
Proof. apply Qeq_eq_bool. Qed.

Lemma div_Fin (a b : Q) : ~ b == 0 -> (Fin a / Fin b)%num = fin (a / b).
Proof. intros H. unfold div. by rewrite Qeq_bool_false. Qed.

Lemma div_zero_zero (a b : Q) : a == 0 -> b == 0 -> (Fin a / Fin b)%num = NaN.
Proof. intros Ha Hb. unfold div. by rewrite !Qeq_bool_true. Qed.

#[global] Instance Qpow_proper : Proper (Qeq ==> eq ==> Qeq) Qpow.
Proof.
  intros a b Hab n ? <-. induction n as [|n IH]; simpl; [done|].
  by rewrite IH, Hab.
Qed.


Lemma pow_Fin (a : Q) (n : nat) : pow (Fin a) n = fin (Qpow a n).
Proof. by destruct n. Qed.


(** NaN is absorbing. *)
Lemma add_NaN_l (x : num) : (NaN + x)%num = NaN.
Proof. by destruct x. Qed.
Lemma add_NaN_r (x : num) : (x + NaN)%num = NaN.
Proof. by destruct x. Qed.
Lemma sub_NaN_l (x : num) : (NaN - x)%num = NaN.
Proof. by destruct x. Qed.
Lemma sub_NaN_r (x : num) : (x - NaN)%num = NaN.
Proof. by destruct x. Qed.
Lemma mul_NaN_l (x : num) : (NaN * x)%num = NaN.
Proof. by destruct x. Qed.
Lemma mul_NaN_r (x : num) : (x * NaN)%num = NaN.
Proof. by destruct x. Qed.
Lemma div_NaN_l (x : num) : (NaN / x)%num = NaN.
Proof. by destruct x. Qed.
Lemma div_NaN_r (x : num) : (x / NaN)%num = NaN.
Proof. by destruct x. Qed.

End NumFacts.

(** ** The prefixado closed form *)

Section Prefixado.
Local Open Scope Q_scope.

Lemma add_FF (a b : Q) : (Fin a + Fin b)%num = Fin (Qred (a + b)).
Proof. reflexivity. Qed.
Lemma sub_FF (a b : Q) : (Fin a - Fin b)%num = Fin (Qred (a - b)).
Proof. reflexivity. Qed.
Lemma mul_FF (a b : Q) : (Fin a * Fin b)%num = Fin (Qred (a * b)).
Proof. reflexivity. Qed.
Lemma pow_FF (a : Q) (n : nat) : pow (Fin a) n = Fin (Qred (Qpow a n)).
Proof. by destruct n. Qed.
Lemma div_FF (a b : Q) : ~ b == 0 -> (Fin a / Fin b)%num = Fin (Qred (a / b)).
Proof. apply div_Fin. Qed.

Lemma converter_taxa_Fin (venc : string) (t : Q) :
  converter_taxa venc (Fin t) = fin (monthly_rate venc t).
Proof.
  unfold converter_taxa, monthly_rate. destruct (String.eqb venc "meses").
  - by rewrite div_Fin.
  - rewrite !div_FF by done.
    fin_eq. field.
Qed.


Lemma investido_prefixado_Fin (P M : Q) (n : nat) :
  investido_prefixado (Fin P) (Fin M) n = fin (P + M * inject_Z (Z.of_nat n)).
Proof.
  unfold investido_prefixado, of_nat, of_Z. rewrite mul_FF, add_FF. fin_eq. done.
Qed.

Lemma liquido_de_Fin (isento : string) (g i : Q) :
  liquido_de isento (Fin g) (Fin g - Fin i)%num
  = Fin (if String.eqb isento "sim" then g else Qred (g - Qred (Qred (g - i) * Qred (0.15)))).
Proof.
  unfold liquido_de, fin. destruct (String.eqb isento "sim"); [done|].
  by rewrite sub_FF, mul_FF, sub_FF.
Qed.

End Prefixado.

(** ** The matcher decides the language of a pattern *)

Section RegexFacts.
Local Open Scope list_scope.

Lemma matches_void_inv (s : list ascii) : ~ matches Void s.
Proof. inversion 1. Qed.

Lemma matches_eps_inv (s : list ascii) : matches Eps s -> s = [].
Proof. by inversion 1. Qed.

Lemma matches_chr_inv (c : ascii) (s : list ascii) :
  matches (Chr c) s -> s = [c].
Proof. by inversion 1. Qed.

Lemma matches_digit_inv (s : list ascii) :
  matches Digit s -> exists c, s = [c] /\ is_digit c = true.
Proof. inversion 1; subst; eauto. Qed.

Lemma matches_cat_inv (r1 r2 : regex) (s : list ascii) :
  matches (Cat r1 r2) s ->
  exists s1 s2, s = s1 ++ s2 /\ matches r1 s1 /\ matches r2 s2.
Proof. inversion 1; subst; eauto. Qed.

Lemma matches_alt_inv (r1 r2 : regex) (s : list ascii) :
  matches (Alt r1 r2) s -> matches r1 s \/ matches r2 s.
Proof. inversion 1; subst; auto. Qed.

Lemma nullable_matches (r : regex) : nullable r = true <-> matches r [].
Proof.
  induction r as [| | c | |r1 IH1 r2 IH2|r1 IH1 r2 IH2|r IH]; simpl.
  - split; [done|]. by intros ?%matches_void_inv.
  - split; [constructor|done].
  - split; [done|]. by intros ?%matches_chr_inv.
  - split; [done|]. by intros (c & ? & _)%matches_digit_inv.
  - rewrite andb_true_iff, IH1, IH2. split.
    + intros [H1 H2]. by apply (m_cat _ _ [] []).
    + intros (s1 & s2 & E & H1 & H2)%matches_cat_inv.
      symmetry in E. apply app_eq_nil in E as [-> ->]. done.
  - rewrite orb_true_iff, IH1, IH2. split.
    + intros [H|H]; [by apply m_alt_l|by apply m_alt_r].
    + apply matches_alt_inv.
  - split; [constructor|done].
Qed.

(** A non-empty match of a star starts with a non-empty match of its body. *)
Lemma matches_star_cons (r : regex) (c : ascii) (s : list ascii) :
  matches (Star r) (c :: s) ->
  exists s1 s2, s = s1 ++ s2 /\ matches r (c :: s1) /\ matches (Star r) s2.
Proof.
  intros H. remember (Star r) as r' eqn:Er. remember (c :: s) as s' eqn:Es.
  revert Er Es.
  induction H as [| | | | | | |r0 s1 s2 H1 _ H2 IH2]; try discriminate.
  intros Er Es. injection Er as ->. destruct s1 as [|c1 s1].
  - simpl in Es. by apply IH2.
  - simpl in Es. injection Es as -> <-. by exists s1, s2.
Qed.

Lemma deriv_matches (r : regex) (c : ascii) (s : list ascii) :
  matches (deriv c r) s <-> matches r (c :: s).
Proof.
  revert s. induction r as [| | c' | |r1 IH1 r2 IH2|r1 IH1 r2 IH2|r IH];
    intros s; simpl.
  - split; by intros ?%matches_void_inv.
  - split; [by intros ?%matches_void_inv|by intros ?%matches_eps_inv].
  - destruct (Ascii.eqb_spec c c') as [->|Hne].
    + split; [intros ->%matches_eps_inv; constructor|].
      intros E%matches_chr_inv. injection E as ->. constructor.
    + split; [by intros ?%matches_void_inv|].
      intros E%matches_chr_inv. congruence.
  - destruct (is_digit c) eqn:Hd.
    + split; [intros ->%matches_eps_inv; by constructor|].
      intros (c0 & E & _)%matches_digit_inv. injection E as _ ->. constructor.
    + split; [by intros ?%matches_void_inv|].
      intros (c0 & E & Hc)%matches_digit_inv. congruence.
  - assert (Hcat : matches (Cat (deriv c r1) r2) s ->
                   matches (Cat r1 r2) (c :: s)).
    { intros (s1 & s2 & -> & H1 & H2)%matches_cat_inv.
      apply IH1 in H1. by apply (m_cat _ _ (c :: s1) s2). }
    assert (Hinv : matches (Cat r1 r2) (c :: s) ->
                   matches (Cat (deriv c r1) r2) s
                   \/ (matches r1 [] /\ matches r2 (c :: s))).
    { intros (s1 & s2 & E & H1 & H2)%matches_cat_inv.
      destruct s1 as [|c1 s1]; simpl in E.
      - subst. by right.
      - injection E as -> ->. left. constructor; [by apply IH1|done]. }
    destruct (nullable r1) eqn:Hn.
    + split.
      * intros [H|H]%matches_alt_inv; [by apply Hcat|].
        apply (m_cat _ _ [] (c :: s)); [by apply nullable_matches|by apply IH2].
      * intros H. destruct (Hinv H) as [H'|[_ H']];
          [by apply m_alt_l|apply m_alt_r; by apply IH2].
    + split; [done|]. intros H. destruct (Hinv H) as [H'|[H' _]]; [done|].
      apply nullable_matches in H'. congruence.
  - split.
    + intros [H|H]%matches_alt_inv;
        [apply m_alt_l; by apply IH1|apply m_alt_r; by apply IH2].
    + intros [H|H]%matches_alt_inv;
        [apply m_alt_l; by apply IH1|apply m_alt_r; by apply IH2].
  - split.
    + intros (s1 & s2 & -> & H1 & H2)%matches_cat_inv.
      apply IH in H1. by apply (m_star_app _ (c :: s1) s2).
    + intros H. apply matches_star_cons in H as (s1 & s2 & -> & H1 & H2).
      constructor; [by apply IH|done].
Qed.

Lemma test_matches (r : regex) (s : list ascii) :
  test r s = true <-> matches r s.
Proof.
  revert r. induction s as [|c s IH]; intros r; simpl.
  - apply nullable_matches.
  - rewrite IH. apply deriv_matches.
Qed.

End RegexFacts.

(** ** The currency format *)

Section Currency.
Local Open Scope list_scope.

Lemma digits_forallb (s : list ascii) : digits s <-> forallb is_digit s = true.
Proof.
  unfold digits. rewrite forallb_forall, Forall_forall.
  split; intros H x Hx; apply H; by apply list_elem_of_In.
Qed.

Lemma digit_not_dot (c : ascii) : is_digit c = true -> Ascii.eqb c "."%char = false.
Proof. destruct (Ascii.eqb_spec c "."%char) as [->|]; [discriminate|done]. Qed.

Lemma digit_not_comma (c : ascii) : is_digit c = true -> Ascii.eqb c ","%char = false.
Proof. destruct (Ascii.eqb_spec c ","%char) as [->|]; [discriminate|done]. Qed.

Lemma matches_rep_digit (n : nat) (s : list ascii) :
  matches (Rep n Digit) s <-> length s = n /\ digits s.
Proof.
  revert s. induction n as [|n IH]; intros s; simpl.
  - split.
    + intros ->%matches_eps_inv. split; [done|constructor].
    + intros [Hl _]. destruct s; [constructor|discriminate].
  - split.
    + intros (s1 & s2 & -> & (c & -> & Hc)%matches_digit_inv & H2)%matches_cat_inv.
      apply IH in H2 as [<- Hd]. split; [done|by constructor].
    + intros [Hl Hd]. destruct s as [|c s]; [discriminate|].
      inversion Hd; subst. apply (m_cat _ _ [c] s); [by constructor|].
      apply IH. split; [by injection Hl|done].
Qed.

Lemma matches_upto_digit (n : nat) (s : list ascii) :
  matches (UpTo n Digit) s <-> (length s <= n)%nat /\ digits s.
Proof.
  revert s. induction n as [|n IH]; intros s; simpl.
  - split.
    + intros ->%matches_eps_inv. split; [done|constructor].
    + intros [Hl _]. destruct s; [constructor|simpl in Hl; lia].
  - unfold Opt. split.
    + intros [H| ->%matches_eps_inv]%matches_alt_inv.
      * apply matches_cat_inv in H
          as (s1 & s2 & -> & (c & -> & Hc)%matches_digit_inv & H2).
        apply IH in H2 as [Hl Hd]. split; [simpl; lia|by constructor].
      * split; [simpl; lia|constructor].
    + intros [Hl Hd]. destruct s as [|c s]; [apply m_alt_r; constructor|].
      inversion Hd; subst. apply m_alt_l.
      apply (m_cat _ _ [c] s); [by constructor|].
      apply IH. split; [simpl in Hl; lia|done].
Qed.

Lemma matches_groups (s : list ascii) :
  matches (Star (Cat (Chr "."%char) (Rep 3 Digit))) s <->
  exists groups, s = concat (map (cons "."%char) groups)
                 /\ Forall (fun g => length g = 3%nat /\ digits g) groups.
Proof.
  split.
  - intros H. remember (Star (Cat (Chr "."%char) (Rep 3 Digit))) as r eqn:Er.
    induction H as [| | | | | | |r0 s1 s2 H1 _ H2 IH2]; try discriminate.
    + exists []. split; [done|constructor].
    + injection Er as ->. destruct (IH2 eq_refl) as (groups & -> & Hg).
      apply matches_cat_inv in H1 as (a & b & -> & ->%matches_chr_inv & Hb).
      apply (matches_rep_digit 3) in Hb. exists (b :: groups).
      split; [by rewrite <- app_assoc|by constructor].
  - intros (groups & -> & Hg). induction Hg as [|g groups [Hl Hd] _ IH]; simpl.
    + constructor.
    + change ("."%char :: g ++ concat (map (cons "."%char) groups))
        with (("."%char :: g) ++ concat (map (cons "."%char) groups)).
      constructor; [|done]. apply (m_cat _ _ ["."%char] g); [constructor|].
      by apply (matches_rep_digit 3).
Qed.

Lemma matches_currency (s : list ascii) :
  matches currency_re s <->
  exists head groups c1 c2, currency_text s head groups c1 c2.
Proof.
  unfold currency_re, currency_text. split.
  - intros (a & b & -> & Ha & Hb)%matches_cat_inv.
    apply matches_cat_inv in Ha
      as (a1 & a2 & -> & (c & -> & Hc)%matches_digit_inv & Ha2).
    apply matches_upto_digit in Ha2 as [Hl2 Hd2].
    apply matches_cat_inv in Hb as (g & t & -> & Hg & Ht).
    apply matches_groups in Hg as (groups & -> & Hg).
    apply matches_cat_inv in Ht as (t1 & t2 & -> & ->%matches_chr_inv & Ht2).
    apply (matches_rep_digit 2) in Ht2 as [Hl Hd].
    destruct t2 as [|c1 [|c2 [|]]]; try discriminate.
    exists (c :: a2), groups, c1, c2. repeat split; simpl; try done; try lia.
    by constructor.
  - intros (head & groups & c1 & c2 & -> & [Hl1 Hl3] & Hh & Hg & Hc).
    destruct head as [|c a2]; [simpl in Hl1; lia|]. inversion Hh; subst.
    apply (m_cat _ _ (c :: a2)).
    + apply (m_cat _ _ [c] a2); [by constructor|].
      apply matches_upto_digit. split; [simpl in Hl3; lia|done].
    + apply m_cat; [apply matches_groups; eauto|].
      apply (m_cat _ _ [","%char] [c1; c2]); [constructor|].
      by apply (matches_rep_digit 2).
Qed.

Lemma remove_dots_app (a b : list ascii) :
  remove_dots (a ++ b) = remove_dots a ++ remove_dots b.
Proof.
  induction a as [|c a IH]; simpl; [done|].
  destruct (Ascii.eqb c "."%char); simpl; by rewrite IH.
Qed.

Lemma remove_dots_digits (ds : list ascii) : digits ds -> remove_dots ds = ds.
Proof.
  induction 1 as [|c ds Hc _ IH]; simpl; [done|].
  by rewrite (digit_not_dot c Hc), IH.
Qed.

Lemma remove_dots_groups (groups : list (list ascii)) :
  Forall (fun g => length g = 3%nat /\ digits g) groups ->
  remove_dots (concat (map (cons "."%char) groups)) = concat groups.
Proof.
  induction 1 as [|g groups [_ Hd] _ IH]; simpl; [done|].
  by rewrite remove_dots_app, remove_dots_digits, IH.
Qed.

Lemma digits_concat (groups : list (list ascii)) :
  Forall (fun g => length g = 3%nat /\ digits g) groups -> digits (concat groups).
Proof.
  induction 1 as [|g groups [_ Hd] _ IH]; simpl; [constructor|].
  by apply Forall_app.
Qed.

Lemma comma_to_dot_digits (ds rest : list ascii) :
  digits ds -> comma_to_dot (ds ++ ","%char :: rest) = ds ++ "."%char :: rest.
Proof.
  induction 1 as [|c ds Hc _ IH]; simpl; [done|].
  by rewrite (digit_not_comma c Hc), IH.
Qed.

Lemma split_dot_digits (ds rest : list ascii) :
  digits ds -> split_dot (ds ++ "."%char :: rest) = (ds, Some rest).
Proof.
  induction 1 as [|c ds Hc _ IH]; simpl; [done|].
  by rewrite (digit_not_dot c Hc), IH.
Qed.

Lemma to_number_currency (val : string) head groups c1 c2 :
  currency_text (chars val) head groups c1 c2 ->
  to_number val
  = fin (inject_Z (decimal (head ++ concat groups))
         + inject_Z (decimal [c1; c2]) / 100)%Q.
Proof.
  intros (E & [Hl1 Hl3] & Hh & Hg & Hc). unfold to_number. rewrite E.
  rewrite remove_dots_app, remove_dots_app, remove_dots_digits,
    remove_dots_groups by done.
  assert (Ht : remove_dots [","%char ; c1; c2] = [","%char ; c1; c2]).
  { inversion Hc as [|? ? H1 Hc']; subst. inversion Hc' as [|? ? H2 _]; subst.
    simpl. by rewrite (digit_not_dot c1), (digit_not_dot c2). }
  rewrite Ht, app_assoc.
  assert (Hd : digits (head ++ concat groups)).
  { apply Forall_app. split; [done|by apply digits_concat]. }
  rewrite comma_to_dot_digits by done. unfold Number.
  rewrite split_dot_digits by done. simpl default.
  apply digits_forallb in Hd, Hc. rewrite Hd, Hc. simpl andb.
  destruct (head ++ concat groups) as [|c l] eqn:El.
  - destruct head; [simpl in Hl1; lia|discriminate].
  - reflexivity.
Qed.
(** The monthly contribution is read the same way and must moreover be
    positive. *)
Lemma aporteMensal_field_valid (val : string) (x : num) :
  aporteMensal_field val = Valid x <->
  aporteInicial_field val = Valid x /\ positive x = true.
Proof.
  unfold aporteMensal_field, aporteInicial_field.
  destruct (test currency_re (chars val)).
  - destruct (positive (to_number val)) eqn:E.
    + split; [intros H; injection H as <-; done|by intros [H _]].
    + split; [discriminate|]. intros [H Hx]. injection H as <-. congruence.
  - split; [discriminate|by intros [H _]].
Qed.

(** C7.  The currency field accepts exactly the strings of the pattern
    [^\d{1,3}(\.\d{3})*,\d{2}$], which are the texts [head.ggg...ggg,cc];
    on such a text its value is the number written by the digits of the
    whole part, dots dropped, plus the two decimals over 100; every other
    string is rejected with the format message.  So ["1.234,56"] gives
    1234.56 and ["1234.56"] is rejected. *)
Theorem parseCurrency_spec (val : string) :
  (matches currency_re (chars val) <->
   exists head groups c1 c2, currency_text (chars val) head groups c1 c2)
  /\ (forall head groups c1 c2,
        currency_text (chars val) head groups c1 c2 ->
        aporteInicial_field val
        = Valid (fin (inject_Z (decimal (head ++ concat groups))
                      + inject_Z (decimal [c1; c2]) / 100)%Q))
  /\ (~ matches currency_re (chars val) ->
      aporteInicial_field val = Invalid "Formato inválido. Use R$ 0,00")
  /\ aporteInicial_field "1.234,56" = Valid (fin 1234.56)
  /\ aporteInicial_field "1234.56" = Invalid "Formato inválido. Use R$ 0,00".
Proof.
  split; [apply matches_currency|]. split; [|split; [|split; reflexivity]].
  - intros head groups c1 c2 H. unfold aporteInicial_field.
    assert (Hm : test currency_re (chars val) = true).
    { apply test_matches, matches_currency. eauto. }
    rewrite Hm. f_equal. by apply to_number_currency.
  - intros Hn. unfold aporteInicial_field.
    destruct (test currency_re (chars val)) eqn:E; [|done].
    by apply test_matches in E.
Qed.
End Currency.

(** ** The loops and the pure reading of [calculate] *)

Section Loops.
Local Open Scope list_scope.

Lemma ipca_mes_lift today t af r m i acc :
  ipca_mes today t af r m i acc
  = lift (x ← ipca_rate t af (ano_apos today i);
          Some (capitaliza r m x acc.1, (acc.2 + m)%num)).
Proof.
  destruct acc as [mo ti]. unfold ipca_mes, ipca_rate, get_Media.
  destruct (t !! ano_apos today i) as [it|]; [done|].
  by destruct (prop t af).
Qed.

Lemma cdi_mes_lift today t af tv m i acc :
  cdi_mes today t af tv m i acc
  = lift (x ← cdi_rate t af (ano_apos today i);
          Some (capitaliza (tv / Fin 100 / Fin 12)%num m x acc.1, (acc.2 + m)%num)).
Proof.
  destruct acc as [mo ti]. unfold cdi_mes, cdi_rate, get_Media.
  destruct (t !! ano_apos today i) as [it|].
  - destruct (truthy (Media it)); [done|]. by destruct (prop t af).
  - by destruct (prop t af).
Qed.

Lemma for_loop_lift (body : nat -> num * num -> M (num * num)) rate today r m :
  (forall i acc, body i acc
     = lift (x ← rate (ano_apos today i);
             Some (capitaliza r m x acc.1, (acc.2 + m)%num))) ->
  forall count i acc,
    for_loop body i count acc = lift (meses_loop rate today r m i count acc).
Proof.
  intros Hbody. induction count as [|count IH]; intros i acc; [done|].
  simpl. rewrite Hbody. destruct (rate (ano_apos today i)) as [x|]; simpl.
  - unfold mbind, M_bind, lift at 1. rewrite IH. done.
  - done.
Qed.

Lemma calculate_conclui (env : Env) (v : MoneyValues) (st : App) :
  calculate env v st = conclui (isentoDeImposto v) st (projecao env v).
Proof.
  destruct st as [stp res con].
  unfold calculate, projecao. destruct (String.eqb (tipoDeTaxa v) "prefixado").
  { simpl. by rewrite app_nil_r. }
  destruct (String.eqb (tipoDeTaxa v) "ipca+").
  - unfold indexado, fetchIPCARateReal. destruct (axios_get env IPCA) as [value|].
    + unfold mbind at 1 2 3 4, M_bind. simpl.
      rewrite (for_loop_lift _ _ _ _ _ (ipca_mes_lift _ _ _ _ _)).
      unfold lift.
      destruct (meses_loop _ _ _ _ _ _ _) as [[mo ti]|]; simpl;
        by rewrite app_nil_r.
    + done.
  - unfold indexado, fetchCDIRateReal. destruct (axios_get env Selic) as [value|].
    + unfold mbind at 1 2 3 4, M_bind. simpl.
      rewrite (for_loop_lift _ _ _ _ _ (cdi_mes_lift _ _ _ _ _)).
      unfold lift.
      destruct (meses_loop _ _ _ _ _ _ _) as [[mo ti]|]; simpl;
        by rewrite app_nil_r.
    + done.
Qed.
End Loops.

(** ** Rate tables and their latest year *)

Section Tables.
Local Open Scope list_scope.

Lemma Qred_inject_Z (z : Z) : Qred (inject_Z z) = inject_Z z.
Proof.
  unfold Qred, inject_Z. simpl.
  generalize (Z.ggcd_gcd z 1) (Z.ggcd_correct_divisors z 1).
  destruct (Z.ggcd z 1) as [g [a b]]. simpl. rewrite Z.gcd_1_r.
  intros -> [Ha Hb]. f_equal; [lia|]. destruct b; lia.
Qed.

Lemma prop_of_Z (t : gmap Z item) (y : Z) : prop t (of_Z y) = t !! y.
Proof. unfold prop, of_Z. by rewrite Qred_inject_Z. Qed.

Lemma ltb_of_Z (a b : Z) : ltb (of_Z a) (of_Z b) = (a <? b)%Z.
Proof.
  unfold ltb, of_Z. destruct (Z.ltb_spec a b) as [H|H].
  - apply negb_true_iff. destruct (Qle_bool _ _) eqn:E; [|done].
    apply Qle_bool_iff in E. rewrite <- Zle_Qle in E. lia.
  - apply negb_false_iff. apply Qle_bool_iff. by rewrite <- Zle_Qle.
Qed.

Lemma Math_max_nil : Math_max [] = NInf.
Proof. done. Qed.

Lemma Math_max_cons (k : Z) (l : list Z) :
  exists m, Math_max (k :: l) = of_Z m /\ m ∈ k :: l
            /\ forall j, j ∈ k :: l -> (j <= m)%Z.
Proof.
  revert k. induction l as [|k' l IH]; intros k.
  - exists k. split; [done|]. split; [left|].
    intros j ->%list_elem_of_singleton. done.
  - destruct (IH k') as (m & Hm & Hin & Hmax).
    change (Math_max (k :: k' :: l))
      with (if ltb (Math_max (k' :: l)) (of_Z k) then of_Z k
            else Math_max (k' :: l)).
    rewrite Hm, ltb_of_Z. destruct (Z.ltb_spec m k) as [H|H].
    + exists k. split; [done|]. split; [left|].
      intros j [->|Hj]%elem_of_cons; [done|]. specialize (Hmax j Hj). lia.
    + exists m. split; [done|]. split; [by right|].
      intros j [->|Hj]%elem_of_cons; [done|]. by apply Hmax.
Qed.

Lemma Math_max_keys (t : gmap Z item) (y : Z) :
  is_max_year t y -> Math_max (map_to_list t).*1 = of_Z y.
Proof.
  intros [[it Hy] Hmax].
  assert (Hin : y ∈ (map_to_list t).*1).
  { apply list_elem_of_fmap. exists (y, it). split; [done|].
    by apply elem_of_map_to_list. }
  destruct ((map_to_list t).*1) as [|k l] eqn:E; [by apply elem_of_nil in Hin|].
  destruct (Math_max_cons k l) as (m & -> & Hm & Hle). f_equal.
  apply Z.le_antisymm; [|by apply Hle].
  apply Hmax. rewrite <- E in Hm.
  apply list_elem_of_fmap in Hm as ([k0 it0] & -> & Hk).
  apply elem_of_map_to_list in Hk. by exists it0.
Qed.

Lemma max_year_exists (t : gmap Z item) :
  t <> ∅ -> exists y, is_max_year t y.
Proof.
  intros Hne. destruct ((map_to_list t).*1) as [|k l] eqn:E.
  - apply fmap_nil_inv in E. by apply map_to_list_empty_iff in E.
  - destruct (Math_max_cons k l) as (m & _ & Hm & Hle). rewrite <- E in Hm, Hle.
    exists m. split.
    + apply list_elem_of_fmap in Hm as ([k0 it0] & -> & Hk).
      apply elem_of_map_to_list in Hk. by exists it0.
    + intros j [it Hj]. apply Hle. apply list_elem_of_fmap.
      exists (j, it). split; [done|]. by apply elem_of_map_to_list.
Qed.
End Tables.

(** ** Exemption flag and missing tables *)

Section Outcome.
Local Open Scope list_scope.

(** C10.  Two runs of [calculate] that differ only in the exemption answer
    complete the same way, with the same gross amount, step and console:
    the answer only reaches the net amount. *)
Theorem gross_independent_of_exemption (env : Env) (v : MoneyValues)
    (st : App) (isento1 isento2 : string) :
  let run1 := calculate env (com_isento v isento1) st in
  let run2 := calculate env (com_isento v isento2) st in
  run1.2 = run2.2
  /\ (montanteBruto <$> result run1.1) = (montanteBruto <$> result run2.1)
  /\ step run1.1 = step run2.1
  /\ console run1.1 = console run2.1.
Proof.
  intros run1 run2. unfold run1, run2. rewrite !calculate_conclui.
  change (projecao env (com_isento v isento1)) with (projecao env v).
  change (projecao env (com_isento v isento2)) with (projecao env v).
  by destruct (projecao env v) as [log [[mo ti]|e]].
Qed.

Lemma meses_loop_None (rate : Z -> option num) today r m i count acc :
  (forall ano, rate ano = None) ->
  meses_loop rate today r m i (S count) acc = None.
Proof. intros H. simpl. by rewrite H. Qed.

(** C6.  In an indexed branch with at least one month, when the fetch
    returns [undefined] (the request failed) or an empty table, [calculate]
    stops with an exception and stores nothing: [result] and [step] are as
    before. *)
Theorem rate_table_unavailable (env : Env) (v : MoneyValues) (st : App) :
  tipoDeTaxa v <> "prefixado" ->
  (1 <= meses_de v)%nat ->
  let fetch :=
    if String.eqb (tipoDeTaxa v) "ipca+" then fetchIPCARateReal env
    else fetchCDIRateReal env in
  (fetch st).2 = inl None \/ (fetch st).2 = inl (Some ∅) ->
  exists st' e,
    calculate env v st = (st', inr e)
    /\ result st' = result st
    /\ step st' = step st
    /\ (e = keys_undefined \/ e = undefined_Media).
Proof.
  intros Htipo Hmeses fetch Hfetch. rewrite calculate_conclui.
  assert (Hp : exists log e, projecao env v = (log, inr e)
                             /\ (e = keys_undefined \/ e = undefined_Media)).
  { unfold projecao. apply String.eqb_neq in Htipo. rewrite Htipo.
    destruct (meses_de v) as [|count]; [lia|].
    unfold fetch in Hfetch. clear fetch.
    destruct (String.eqb (tipoDeTaxa v) "ipca+").
    - unfold fetchIPCARateReal in Hfetch. unfold indexado.
      destruct (axios_get env IPCA) as [value|]; [|by eauto].
      destruct Hfetch as [Hf|Hf]; [discriminate|].
      simpl in Hf. injection Hf as ->. rewrite map_to_list_empty.
      rewrite meses_loop_None; [by eauto|].
      intros ano. unfold ipca_rate. by rewrite lookup_empty.
    - unfold fetchCDIRateReal in Hfetch. unfold indexado.
      destruct (axios_get env Selic) as [value|]; [|by eauto].
      destruct Hfetch as [Hf|Hf]; [discriminate|].
      simpl in Hf. injection Hf as ->. rewrite map_to_list_empty.
      rewrite meses_loop_None; [by eauto|].
      intros ano. unfold cdi_rate. by rewrite lookup_empty. }
  destruct Hp as (log & e & -> & He). simpl. eauto 6.
Qed.
Local Open Scope Q_scope.

Lemma meses_loop_investido rate today r (M : Q) count :
  forall i mo (a : Q) acc,
    meses_loop rate today r (Fin M) i count (mo, Fin a) = Some acc ->
    exists q, acc.2 = Fin q /\ q == a + M * inject_Z (Z.of_nat count).
Proof.
  induction count as [|count IH]; intros i mo a acc H.
  - injection H as <-. exists a. split; [done|]. simpl. ring.
  - simpl in H. destruct (rate (ano_apos today i)) as [x|]; [|discriminate].
    rewrite add_FF in H. apply IH in H as (q & Hq & E). exists q.
    split; [done|]. rewrite E, Qred_correct, Nat2Z.inj_succ.
    unfold Z.succ. rewrite inject_Z_plus. ring.
Qed.

(** The principal paid in, whatever the branch. *)
Lemma projecao_investido (env : Env) (v : MoneyValues) log mo ti (P M : Q) :
  projecao env v = (log, inl (mo, ti)) ->
  to_number (aporteInicial v) = Fin P ->
  to_number (aporteMensal v) = Fin M ->
  exists i, ti = Fin i /\ i == P + M * inject_Z (Z.of_nat (meses_de v)).
Proof.
  intros Hp HP HM. unfold projecao in Hp. rewrite HP, HM in Hp.
  destruct (String.eqb (tipoDeTaxa v) "prefixado").
  - injection Hp as _ _ <-. rewrite investido_prefixado_Fin.
    eexists. split; [done|]. by rewrite Qred_correct.
  - assert (Hi : forall keep rate resp r,
               indexado keep rate resp (today env) r (Fin P) (Fin M) (meses_de v)
               = (log, inl (mo, ti)) ->
               exists i, ti = Fin i
                         /\ i == P + M * inject_Z (Z.of_nat (meses_de v))).
    { intros keep rate resp r Hi. unfold indexado in Hi.
      destruct resp as [value|]; [|discriminate].
      destruct (meses_loop _ _ _ _ _ _ _) as [acc|] eqn:E; [|discriminate].
      injection Hi as _ ->. by apply meses_loop_investido in E. }
    destruct (String.eqb (tipoDeTaxa v) "ipca+"); by eapply Hi.
Qed.

Lemma conclui_inl isento st p st' :
  conclui isento st p = (st', inl tt) ->
  exists log mo ti,
    p = (log, inl (mo, ti))
    /\ result st'
       = Some {| montanteBruto := mo;
                 montanteLiquido := liquido_de isento mo (mo - ti)%num |}.
Proof.
  destruct p as [log [[mo ti]|e]]; simpl; [|discriminate].
  intros H. injection H as <-. by exists log, mo, ti.
Qed.

(** C5.  Whatever the branch, a completed calculation stores as net amount
    the gross amount itself when the answer is exempt, and otherwise the
    gross amount minus 0.15 times the gain, the gain being the gross amount
    minus the principal paid in: initial deposit plus one contribution per
    month. *)
Theorem tax_step (env : Env) (v : MoneyValues) (st st' : App) :
  calculate env v st = (st', inl tt) ->
  exists montante totalInvestido : num,
    result st'
    = Some {| montanteBruto := montante;
              montanteLiquido :=
                if String.eqb (isentoDeImposto v) "sim" then montante
                else (montante - (montante - totalInvestido) * fin 0.15)%num |}
    /\ (forall P M : Q,
          to_number (aporteInicial v) = Fin P ->
          to_number (aporteMensal v) = Fin M ->
          exists i, totalInvestido = Fin i
                    /\ i == P + M * inject_Z (Z.of_nat (meses_de v))).
Proof.
  rewrite calculate_conclui.
  intros (log & mo & ti & Hp & Hr)%conclui_inl. exists mo, ti.
  split; [done|]. intros P M HP HM. by eapply projecao_investido.
Qed.
End Outcome.

(** ** The geometric series of the prefixado branch *)

Section Geometric.
Local Open Scope Q_scope.




End Geometric.

(** ** Monotonicity and the net/gross order *)

Section Order.
Local Open Scope list_scope.
Local Open Scope Q_scope.



End Order.

(** ** Zero rate and the CDI branch *)

Section NotANumber.
Local Open Scope list_scope.
Local Open Scope Q_scope.

Lemma Qpow_1 (n : nat) : Qpow 1 n == 1.
Proof. induction n as [|n IH]; simpl; [done|]. rewrite IH. ring. Qed.

Lemma bruto_prefixado_zero (x y : num) (r : Q) (n : nat) :
  r == 0 -> bruto_prefixado x y (Fin r) n = NaN.
Proof.
  intros Hr. unfold bruto_prefixado.
  rewrite add_FF, pow_FF, sub_FF, div_zero_zero, mul_NaN_r, add_NaN_r; [done| |done].
  rewrite !Qred_correct, Hr, Qplus_0_r, Qpow_1. ring.
Qed.

Lemma liquido_de_NaN (isento : string) (ti : num) :
  liquido_de isento NaN (NaN - ti)%num = NaN.
Proof.
  unfold liquido_de. destruct (String.eqb isento "sim"); [done|].
  by rewrite sub_NaN_l.
Qed.

Lemma gtb_Fin_0 (t : Q) : gtb (Fin t) (Fin 0) = true <-> 0 < t.
Proof.
  unfold gtb, ltb. rewrite negb_true_iff, <- not_true_iff_false, Qle_bool_iff.
  split; [apply Qnot_le_lt|apply Qlt_not_le].
Qed.

(** C3 (amended).  The prefixado branch has no case for a zero rate: with
    [r = 0] the closed form divides 0 by 0 and both amounts are NaN.  The
    schema keeps the case away: a [taxa] it accepts gives [r > 0]. *)
Theorem prefixado_zero_rate (env : Env) (v : MoneyValues) (st : App) (t : Q) :
  tipoDeTaxa v = "prefixado" ->
  to_number (taxa v) = Fin t ->
  (t == 0 ->
   calculate env v st
   = ({| step := step st + 1;
         result := Some {| montanteBruto := NaN; montanteLiquido := NaN |};
         console := console st |}, inl tt))
  /\ (is_valid (taxa_field (taxa v)) = true ->
      0 < monthly_rate (vencimento v) t).
Proof.
  intros Htipo Ht. split.
  - intros H0. rewrite calculate_conclui. unfold projecao, taxaValue_de.
    rewrite Htipo, Ht. simpl String.eqb. cbv iota.
    rewrite converter_taxa_Fin. unfold fin.
    rewrite bruto_prefixado_zero.
    + simpl. by rewrite liquido_de_NaN, app_nil_r.
    + rewrite Qred_correct. unfold monthly_rate.
      destruct (String.eqb _ _); rewrite H0; reflexivity.
  - unfold taxa_field. destruct (test taxa_re _); [|discriminate].
    unfold positive. rewrite Ht.
    destruct (gtb (Fin t) (Fin 0)) eqn:E; [|discriminate].
    intros _. apply gtb_Fin_0 in E. unfold monthly_rate.
    destruct (String.eqb _ _).
    + apply Qlt_shift_div_l; lra.
    + apply Qlt_shift_div_l; [lra|]. rewrite Qmult_0_l.
      apply Qlt_shift_div_l; lra.
Qed.

(** *** The CDI loop *)

Lemma capitaliza_NaN_rate (r m mo : num) : capitaliza r m NaN mo = NaN.
Proof.
  unfold capitaliza.
  by rewrite !div_NaN_l, add_NaN_r, mul_NaN_r, sub_NaN_l, add_NaN_r, mul_NaN_r.
Qed.

Lemma capitaliza_NaN_montante (r m x : num) : capitaliza r m x NaN = NaN.
Proof. unfold capitaliza. by rewrite add_NaN_l, mul_NaN_l. Qed.

Lemma cdi_rate_truthy (t : gmap Z item) (af : num) (ano : Z) (it : item) :
  t !! ano = Some it -> truthy (Media it) = true ->
  cdi_rate t af ano = Some NaN.
Proof.
  intros Hl Ht. unfold cdi_rate. rewrite Hl, Ht. simpl. by rewrite mul_NaN_l.
Qed.

Lemma cdi_rate_is_Some (t : gmap Z item) (af : num) (ano : Z) :
  is_Some (prop t af) -> is_Some (cdi_rate t af ano).
Proof.
  intros [it' H]. unfold cdi_rate. rewrite H. simpl.
  destruct (t !! ano) as [it|]; [|done]. by destruct (truthy (Media it)).
Qed.

Lemma meses_loop_NaN rate today r m count :
  (forall ano, is_Some (rate ano)) ->
  forall i ti, exists ti',
    meses_loop rate today r m i count (NaN, ti) = Some (NaN, ti').
Proof.
  intros Hrate. induction count as [|count IH]; intros i ti; [by eexists|].
  simpl. destruct (Hrate (ano_apos today i)) as [x ->].
  rewrite capitaliza_NaN_montante. apply IH.
Qed.

Lemma meses_loop_hits_NaN rate today r m count :
  (forall ano, is_Some (rate ano)) ->
  forall i k acc,
    (i <= k < i + count)%nat ->
    rate (ano_apos today k) = Some NaN ->
    exists ti', meses_loop rate today r m i count acc = Some (NaN, ti').
Proof.
  intros Hrate. induction count as [|count IH]; intros i k acc Hk Hnan; [lia|].
  simpl. destruct (decide (k = i)) as [->|Hne].
  - rewrite Hnan, capitaliza_NaN_rate. by apply meses_loop_NaN.
  - destruct (Hrate (ano_apos today i)) as [x ->]. apply (IH _ k); [lia|done].
Qed.

(** C9 (amended).  In the CDI branch, when one of the simulated months
    falls in a year that the fetched table holds with a truthy [Media]
    (neither 0 nor NaN), the rate of that month is read from the missing
    property [Medi], and the calculation completes with NaN as gross and
    net amount. *)
Theorem cdi_not_a_number (env : Env) (v : MoneyValues) (st : App)
    (value : list item) (i : nat) (it : item) :
  tipoDeTaxa v <> "prefixado" ->
  tipoDeTaxa v <> "ipca+" ->
  axios_get env Selic = Some value ->
  (1 <= i <= meses_de v)%nat ->
  collect scaled value !! ano_apos (today env) i = Some it ->
  truthy (Media it) = true ->
  calculate env v st
  = ({| step := step st + 1;
        result := Some {| montanteBruto := NaN; montanteLiquido := NaN |};
        console := console st |}, inl tt).
Proof.
  intros Hpre%String.eqb_neq Hipca%String.eqb_neq Hget Hi Hit Htruthy.
  rewrite calculate_conclui. unfold projecao. rewrite Hpre, Hipca, Hget.
  unfold indexado.
  destruct (max_year_exists (collect scaled value)) as (y & Hy).
  { intros E. rewrite E, lookup_empty in Hit. discriminate. }
  rewrite (Math_max_keys _ y Hy).
  edestruct (meses_loop_hits_NaN
               (cdi_rate (collect scaled value) (of_Z y)) (today env))
    as (ti & ->).
  - intros ano. apply cdi_rate_is_Some. rewrite prop_of_Z. apply Hy.
  - split; [apply Hi|]. simpl. lia.
  - by eapply cdi_rate_truthy.
  - simpl. by rewrite liquido_de_NaN, app_nil_r.
Qed.
End NotANumber.

(** ** The ipca+ branch against the specification *)

Section Ipca.
Local Open Scope list_scope.

Lemma div_12_100 (x : num) :
  (x / Fin 12 / Fin 100)%num = (x / Fin 100 / Fin 12)%num.
Proof.
  destruct x as [q| | |]; try reflexivity.
  rewrite !div_FF by done. fin_eq. field.
Qed.

Lemma converter_taxa_spec (venc : string) (x : num) :
  converter_taxa venc x = spec_real_monthly_rate venc x.
Proof.
  unfold converter_taxa, spec_real_monthly_rate.
  destruct (String.eqb venc "meses"); [done|apply div_12_100].
Qed.

(** [setMonth(getMonth() + i)] lands in the year reached by stepping [i]
    months through the calendar. *)
Lemma iter_next_month (today : date) (i : nat) :
  (0 <= month today <= 11)%Z ->
  Nat.iter i next_month today
  = {| fullYear := fullYear today + (month today + Z.of_nat i) / 12;
       month := (month today + Z.of_nat i) mod 12 |}.
Proof.
  intros Hm. induction i as [|i IH].
  - simpl. destruct today as [y m]. simpl in *. f_equal.
    + rewrite Z.add_0_r, Z.div_small by lia. lia.
    + rewrite Z.add_0_r, Z.mod_small by lia. done.
  - simpl Nat.iter. rewrite IH. unfold next_month. simpl.
    rewrite Nat2Z.inj_succ.
    destruct (Z.eqb_spec ((month today + Z.of_nat i) mod 12) 11) as [E|E];
      f_equal; Z.div_mod_to_equations; lia.
Qed.

Lemma ano_apos_calendar (today : date) (i : nat) :
  (0 <= month today <= 11)%Z ->
  ano_apos today i = spec_calendar_year today i.
Proof.
  intros Hm. unfold spec_calendar_year. by rewrite iter_next_month.
Qed.

Lemma meses_loop_spec (t : gmap Z item) (y : Z) (it : item) today r m :
  (0 <= month today <= 11)%Z ->
  t !! y = Some it ->
  forall count i b ti, exists ti',
    meses_loop (ipca_rate t (of_Z y)) today r m i count (b, ti)
    = Some (spec_balance t (Media it) today r m i count b, ti').
Proof.
  intros Hm Hy. induction count as [|count IH]; intros i b ti; [by eexists|].
  simpl.
  assert (Hrate : ipca_rate t (of_Z y) (ano_apos today i)
                  = Some (spec_table_rate t (Media it)
                            (spec_calendar_year today i))).
  { rewrite <- ano_apos_calendar by done. unfold ipca_rate, spec_table_rate.
    destruct (t !! ano_apos today i); [done|]. by rewrite prop_of_Z, Hy. }
  rewrite Hrate. unfold capitaliza. rewrite div_12_100. apply IH.
Qed.

(** C4.  In the ipca+ branch with a non-empty table, [calculate] stores as
    gross amount the balance of the specification: from the initial
    deposit, each month [i = 1..n] of the total of months takes the rate of
    the calendar year of today plus [i] months, or that of the latest year
    of the table when that year is absent, as [tableRate/100/12], and
    compounds the balance plus the contribution at
    [(1 + real)*(1 + index) - 1]. *)
Theorem ipca_follows_spec (env : Env) (v : MoneyValues) (st : App)
    (value : list item) (periodUnit : PeriodUnit) :
  tipoDeTaxa v = "ipca+" ->
  periodoTipo v = periodoTipo_of periodUnit ->
  (0 <= month (today env) <= 11)%Z ->
  axios_get env IPCA = Some value ->
  collect id value <> ∅ ->
  exists (y : Z) (it : item) (net : num),
    is_max_year (collect id value) y
    /\ collect id value !! y = Some it
    /\ calculate env v st
       = ({| step := step st + 1;
             result :=
               Some {| montanteBruto :=
                         spec_balance (collect id value) (Media it) (today env)
                           (spec_real_monthly_rate (vencimento v)
                              (to_number (taxa v)))
                           (to_number (aporteMensal v)) 1
                           (totalMonths (periodo v) periodUnit)
                           (to_number (aporteInicial v));
                       montanteLiquido := net |};
             console := console st |}, inl tt).
Proof.
  intros Htipo Hunit Hmonth Hget Hne.
  assert (Hn : meses_de v = totalMonths (periodo v) periodUnit).
  { unfold meses_de. rewrite Hunit. by destruct periodUnit. }
  destruct (max_year_exists _ Hne) as (y & Hmax).
  destruct (proj1 Hmax) as [it Hy]. exists y, it.
  rewrite calculate_conclui.
  unfold projecao, taxaValue_de. rewrite Htipo, Hget, Hn. simpl String.eqb.
  cbv iota. unfold indexado. rewrite (Math_max_keys _ y Hmax).
  rewrite converter_taxa_spec.
  edestruct (meses_loop_spec (collect id value) y it) as (ti & ->);
    [done|done|].
  simpl. rewrite app_nil_r. eexists.
  split; [exact Hmax|]. split; [exact Hy|reflexivity].
Qed.
End Ipca.

(** ** The prefixado branch against the specification *)

Section Fixed.
Local Open Scope list_scope.
Local Open Scope Q_scope.

End Fixed.


(** ** What a submitted form gives [calculate] *)

Section Submission.
Local Open Scope list_scope.
Local Open Scope Q_scope.

Lemma matches_star_digit (s : list ascii) :
  matches (Star Digit) s <-> digits s.
Proof.
  split.
  - intros H. remember (Star Digit) as r eqn:Er.
    induction H as [| | | | | | |r0 s1 s2 H1 _ H2 IH2]; try discriminate.
    + constructor.
    + injection Er as ->.
      apply matches_digit_inv in H1 as (c & -> & Hc).
      constructor; [done|by apply IH2].
  - induction 1 as [|c s Hc _ IH]; [constructor|].
    apply (m_star_app _ [c] s); [by constructor|done].
Qed.

Lemma split_dot_no_dot (ds : list ascii) :
  digits ds -> split_dot ds = (ds, None).
Proof.
  induction 1 as [|c ds Hc _ IH]; simpl; [done|].
  by rewrite (digit_not_dot c Hc), IH.
Qed.

Lemma digit_value_range (c : ascii) :
  is_digit c = true -> (0 <= digit_value c <= 9)%Z.
Proof.
  unfold is_digit, digit_value. rewrite andb_true_iff.
  intros [H1%Nat.leb_le H2%Nat.leb_le]. lia.
Qed.

Lemma decimal_nonneg (ds : list ascii) : digits ds -> (0 <= decimal ds)%Z.
Proof.
  unfold decimal. intros H.
  assert (Hacc : forall acc, (0 <= acc)%Z ->
            (0 <= fold_left (fun a c => 10 * a + digit_value c) ds acc)%Z).
  { induction H as [|c ds Hc _ IH]; intros acc Hacc; simpl; [done|].
    apply IH. apply digit_value_range in Hc. lia. }
  by apply Hacc.
Qed.

Lemma Number_digits (ds : list ascii) :
  digits ds -> ds <> [] -> Number ds = of_Z (decimal ds).
Proof.
  intros Hd Hne. unfold Number. rewrite split_dot_no_dot by done. simpl.
  apply digits_forallb in Hd. rewrite Hd. simpl.
  destruct ds as [|c ds]; [done|].
  unfold of_Z. rewrite <- Qred_inject_Z. fin_eq.
  change (inject_Z (decimal []) / inject_Z (10 ^ Z.of_nat 0)) with (0 / 1).
  field.
Qed.

(** A submitted [periodo] is the decimal writing of the number of periods
    that [calculate] is given, and that number is at least 1. *)
Lemma periodo_submitted (f : FormValues) :
  MoneyDataSchema f = true ->
  Number (chars (f_periodo f)) = of_nat (periodo (getMoneyValues f))
  /\ (1 <= periodo (getMoneyValues f))%nat.
Proof.
  unfold MoneyDataSchema. rewrite !andb_true_iff. intros [_ Hp].
  unfold periodo_field in Hp.
  destruct (test periodo_re (chars (f_periodo f))) eqn:Ht; [|discriminate].
  destruct (positive (Number (chars (f_periodo f)))) eqn:Hpos; [|discriminate].
  apply test_matches in Ht. unfold periodo_re, Plus in Ht.
  apply matches_cat_inv in Ht
    as (s1 & s2 & E & (c & -> & Hc)%matches_digit_inv & Hs%matches_star_digit).
  assert (Hd : digits (chars (f_periodo f))) by (rewrite E; by constructor).
  assert (Hne : chars (f_periodo f) <> []) by (by rewrite E).
  rewrite Number_digits in * by done.
  pose proof (decimal_nonneg _ Hd) as H0.
  unfold positive in Hpos. apply gtb_Fin_0 in Hpos.
  change 0 with (inject_Z 0) in Hpos. rewrite <- Zlt_Qlt in Hpos.
  simpl periodo. split; [|lia].
  unfold of_nat. by rewrite Z2Nat.id.
Qed.
End Submission.

(** ** The theorems on sample inputs *)

Section Samples.
Local Open Scope list_scope.
Local Open Scope Q_scope.



Lemma prefixado_zero_rate_witness :
  calculate servico
    (getMoneyValues
       (formulario "prefixado" "12" "1.000,00" "100,00" "0" "não" "ano")) st0
  = ({| step := 3;
        result := Some {| montanteBruto := NaN; montanteLiquido := NaN |};
        console := [] |}, inl tt).
Proof.
  apply (prefixado_zero_rate servico
           (getMoneyValues
              (formulario "prefixado" "12" "1.000,00" "100,00" "0" "não" "ano"))
           st0 0); reflexivity.
Defined.

Lemma ipca_follows_spec_witness :
  let v := getMoneyValues
             (em_anos
                (formulario "ipca+" "2" "1.000,00" "100,00" "6" "sim" "ano")) in
  let table := collect id [previsao "IPCA" 20 2026 4.5;
                           previsao "IPCA" 20 2027 4] in
  exists (y : Z) (it : item) (net : num),
    is_max_year table y
    /\ table !! y = Some it
    /\ calculate servico v st0
       = ({| step := 3;
             result :=
               Some {| montanteBruto :=
                         spec_balance table (Media it) hoje
                           (spec_real_monthly_rate "ano" (Fin 6)) (Fin 100)
                           1 24 (Fin 1000);
                       montanteLiquido := net |};
             console := [] |}, inl tt).
Proof.
  apply (ipca_follows_spec servico
           (getMoneyValues
              (em_anos
                 (formulario "ipca+" "2" "1.000,00" "100,00" "6" "sim" "ano")))
           st0 [previsao "IPCA" 20 2026 4.5; previsao "IPCA" 20 2027 4] Year);
    [reflexivity|reflexivity|simpl; lia|reflexivity|].
  intros E. apply (f_equal (fun t => t !! 2027%Z)) in E. discriminate E.
Defined.

Lemma tax_step_witness :
  exists montante totalInvestido : num,
    result (calculate servico (getMoneyValues cenario) st0).1
    = Some {| montanteBruto := montante;
              montanteLiquido :=
                (montante - (montante - totalInvestido) * fin 0.15)%num |}.
Proof.
  destruct (tax_step servico (getMoneyValues cenario) st0
              (calculate servico (getMoneyValues cenario) st0).1)
    as (mo & ti & Hr & _); [vm_compute; reflexivity|].
  exists mo, ti. exact Hr.
Defined.

Lemma rate_table_unavailable_witness :
  (exists st' e,
     calculate servico_fora
       (getMoneyValues
          (formulario "ipca+" "12" "1.000,00" "100,00" "6" "sim" "ano")) st0
     = (st', inr e)
     /\ result st' = None /\ step st' = 2%nat
     /\ (e = keys_undefined \/ e = undefined_Media))
  /\ (exists st' e,
        calculate servico_vazio
          (getMoneyValues
             (formulario "+CDI" "12" "1.000,00" "100,00" "6" "sim" "ano")) st0
        = (st', inr e)
        /\ result st' = None /\ step st' = 2%nat
     /\ (e = keys_undefined \/ e = undefined_Media)).
Proof.
  split.
  - apply (rate_table_unavailable servico_fora
             (getMoneyValues
                (formulario "ipca+" "12" "1.000,00" "100,00" "6" "sim" "ano"))
             st0); [discriminate|vm_compute; lia|left; reflexivity].
  - apply (rate_table_unavailable servico_vazio
             (getMoneyValues
                (formulario "+CDI" "12" "1.000,00" "100,00" "6" "sim" "ano"))
             st0); [discriminate|vm_compute; lia|right; reflexivity].
Defined.

Lemma parseCurrency_spec_witness :
  currency_text (chars "1.234,56") (chars "1") [chars "234"] "5"%char "6"%char
  /\ aporteInicial_field "1.234,56" = Valid (fin (1234 + 56 / 100)).
Proof.
  assert (H : currency_text (chars "1.234,56") (chars "1") [chars "234"]
                "5"%char "6"%char).
  { unfold currency_text, digits. simpl. repeat split; try lia;
      repeat constructor. }
  split; [exact H|].
  exact (proj1 (proj2 (parseCurrency_spec "1.234,56")) _ _ _ _ H).
Defined.


Lemma cdi_not_a_number_witness :
  calculate servico
    (getMoneyValues
       (formulario "+CDI" "12" "1.000,00" "100,00" "6" "sim" "ano")) st0
  = ({| step := 3;
        result := Some {| montanteBruto := NaN; montanteLiquido := NaN |};
        console := [] |}, inl tt).
Proof.
  apply (cdi_not_a_number servico
           (getMoneyValues
              (formulario "+CDI" "12" "1.000,00" "100,00" "6" "sim" "ano"))
           st0 [previsao "Selic" 20 2026 15; previsao "Selic" 20 2027 12.5] 1
           (scaled (previsao "Selic" 20 2026 15)));
    [discriminate|discriminate|reflexivity|vm_compute; lia|reflexivity|reflexivity].
Defined.

(** *** Inputs on which the specification's statements fail *)


(** C3.  With a rate of zero the prefixado branch stores NaN, not the
    principal 1000 + 100*12. *)
Lemma zero_rate_counterexample :
  let v := getMoneyValues
             (formulario "prefixado" "12" "1.000,00" "100,00" "0" "não" "ano") in
  converter_taxa (vencimento v) (taxaValue_de v) = Fin 0
  /\ (to_number (aporteInicial v)
      + to_number (aporteMensal v) * of_nat (meses_de v))%num = Fin 2200
  /\ montanteBruto <$> result (calculate servico v st0).1 = Some NaN.
Proof. repeat split. Qed.


(** C9.  December 2026 is a year of the table, with a [Media] of zero: the
    rate is then read from the latest year and the result is a number. *)
Lemma cdi_numeric_counterexample :
  let cdi := formulario "+CDI" "1" "1.000,00" "100,00" "0,01" "sim" "ano" in
  is_Some (collect scaled [previsao "Selic" 20 2026 0;
                           previsao "Selic" 20 2027 10]
           !! ano_apos hoje 1)
  /\ exists g m : Q,
       handleMoneySubmit servico_selic_zero cdi st0
       = ({| step := 3;
             result :=
               Some {| montanteBruto := Fin g; montanteLiquido := Fin m |};
             console := [] |}, inl tt).
Proof.
  split; [by eexists|]. eexists _, _. vm_compute. reflexivity.
Qed.

End Samples.

(** * The helpers around the calculation *)

(** ** Phone numbers *)

Section Phone.
Local Open Scope list_scope.
Local Open Scope char_scope.

Lemma digits_filter (s : list ascii) :
  digits (filter (fun c => is_digit c = true) s).
Proof.
  apply Forall_forall. by intros c [Hc _]%list_elem_of_filter.
Qed.

Lemma filter_digits (ds : list ascii) :
  digits ds -> filter (fun c => is_digit c = true) ds = ds.
Proof.
  induction 1 as [|c ds Hc _ IH]; [done|].
  by rewrite filter_cons_True, IH.
Qed.

(** The digits [formatPhoneNumber] lays out. *)
Lemma formatPhoneNumber_layout (s : list ascii) :
  let d := take 11 (filter (fun c => is_digit c = true) s) in
  formatPhoneNumber s
  = if (6 <? length d)%nat then
      "(" :: take 2 d ++ ")" :: " " :: take 1 (drop 2 d) ++ " "
        :: take 4 (drop 3 d) ++ "-" :: drop 7 d
    else if (2 <? length d)%nat then
      "(" :: take 2 d ++ ")" :: " " :: drop 2 d
    else d.
Proof.
  intros d. unfold formatPhoneNumber, slice, slice_from.
  set (p := filter _ s) in *.
  assert (Hd : (if (11 <? length p)%nat then take (11 - 0) (drop 0 p) else p)
               = d).
  { unfold d. destruct (Nat.ltb_spec 11 (length p)); [done|].
    rewrite take_ge; [done|lia]. }
  rewrite Hd. done.
Qed.

Lemma matches_phone_length (s : list ascii) :
  matches phone_re s -> length s = 16%nat.
Proof.
  unfold phone_re.
  intros (s1 & r1 & -> & ->%matches_chr_inv & H)%matches_cat_inv.
  apply matches_cat_inv in H as (s2 & r2 & -> & [H2 _]%(matches_rep_digit 2) & H).
  apply matches_cat_inv in H as (s3 & r3 & -> & ->%matches_chr_inv & H).
  apply matches_cat_inv in H as (s4 & r4 & -> & ->%matches_chr_inv & H).
  apply matches_cat_inv in H
    as (s5 & r5 & -> & (c & -> & _)%matches_digit_inv & H).
  apply matches_cat_inv in H as (s6 & r6 & -> & ->%matches_chr_inv & H).
  apply matches_cat_inv in H as (s7 & r7 & -> & [H7 _]%(matches_rep_digit 4) & H).
  apply matches_cat_inv in H as (s8 & r8 & -> & ->%matches_chr_inv & H).
  apply (matches_rep_digit 4) in H as [H9 _].
  list_length. lia.
Qed.

Lemma matches_phone_digits (d : list ascii) :
  digits d -> length d = 11%nat ->
  matches phone_re
    ("(" :: take 2 d ++ ")" :: " " :: take 1 (drop 2 d) ++ " "
       :: take 4 (drop 3 d) ++ "-" :: drop 7 d).
Proof.
  intros Hd Hl.
  do 11 (destruct d as [|? d]; [discriminate|]). destruct d; [|discriminate].
  unfold digits in *.
  repeat match goal with
         | H : Forall _ (_ :: _) |- _ => apply Forall_cons in H as [? H]
         end.
  simpl. unfold phone_re.
  apply (m_cat _ _ ["("]); [constructor|].
  apply (m_cat _ _ [_; _]); [apply (matches_rep_digit 2); by repeat constructor|].
  apply (m_cat _ _ [")"]); [constructor|].
  apply (m_cat _ _ [" "]); [constructor|].
  apply (m_cat _ _ [_]); [by constructor|].
  apply (m_cat _ _ [" "]); [constructor|].
  apply (m_cat _ _ [_; _; _; _]);
    [apply (matches_rep_digit 4); by repeat constructor|].
  apply (m_cat _ _ ["-"]); [constructor|].
  apply (matches_rep_digit 4); by repeat constructor.
Qed.

(** X1.  The formatted field passes [validatePhoneNumber] exactly when the
    text typed holds at least eleven digits. *)
Theorem formatted_phone_valid (s : list ascii) :
  validatePhoneNumber (formatPhoneNumber s) = true
  <-> (11 <= length (filter (fun c => is_digit c = true) s))%nat.
Proof.
  unfold validatePhoneNumber. rewrite test_matches, formatPhoneNumber_layout.
  set (p := filter _ s). cbv zeta.
  assert (Hd : digits (take 11 p)) by apply Forall_take, digits_filter.
  assert (Hl : length (take 11 p) = min 11 (length p)) by apply length_take.
  split.
  - intros H%matches_phone_length. revert H.
    destruct (Nat.ltb_spec 6 (length (take 11 p))).
    + list_length. lia.
    + destruct (Nat.ltb_spec 2 (length (take 11 p))).
      * list_length. lia.
      * lia.
  - intros Hp. assert (Hl' : length (take 11 p) = 11%nat) by lia.
    rewrite Hl'. simpl. by apply matches_phone_digits.
Qed.

(** X2.  The formatted field keeps the first eleven digits typed, in order,
    and formatting it again changes nothing. *)
Theorem formatPhoneNumber_digits (s : list ascii) :
  filter (fun c => is_digit c = true) (formatPhoneNumber s)
  = take 11 (filter (fun c => is_digit c = true) s)
  /\ formatPhoneNumber (formatPhoneNumber s) = formatPhoneNumber s.
Proof.
  assert (H : filter (fun c => is_digit c = true) (formatPhoneNumber s)
              = take 11 (filter (fun c => is_digit c = true) s)).
  { rewrite formatPhoneNumber_layout. set (p := filter _ s). cbv zeta.
    assert (Hd : digits (take 11 p)) by apply Forall_take, digits_filter.
    set (d := take 11 p) in *.
    destruct (6 <? length d)%nat; [|destruct (2 <? length d)%nat].
    - rewrite filter_cons_False by done. rewrite filter_app.
      rewrite !filter_cons_False by done. rewrite filter_app.
      rewrite filter_cons_False by done. rewrite filter_app.
      rewrite filter_cons_False by done.
      rewrite !filter_digits
        by (try apply Forall_take; try apply Forall_drop; done).
      rewrite app_assoc, take_take_drop, app_assoc, take_take_drop.
      apply take_drop.
    - rewrite filter_cons_False by done. rewrite filter_app.
      rewrite !filter_cons_False by done.
      rewrite !filter_digits
        by (try apply Forall_take; try apply Forall_drop; done).
      apply take_drop.
    - by apply filter_digits. }
  split; [done|].
  rewrite (formatPhoneNumber_layout (formatPhoneNumber s)), H.
  rewrite take_take. simpl min. symmetry. apply formatPhoneNumber_layout.
Qed.
End Phone.

(** ** The rate field *)

Section Taxa.
Local Open Scope list_scope.
Local Open Scope char_scope.

Lemma collapse_commas_cons (c c' : ascii) (s : list ascii) :
  collapse_commas (c :: c' :: s)
  = if Ascii.eqb c "," && Ascii.eqb c' "," then collapse_commas (c' :: s)
    else c :: collapse_commas (c' :: s).
Proof. done. Qed.

Lemma collapse_commas_head (c : ascii) (s : list ascii) :
  head (collapse_commas (c :: s)) = Some c.
Proof.
  revert c. induction s as [|c' s IH]; intros c; [done|].
  rewrite collapse_commas_cons.
  destruct (Ascii.eqb_spec c ","), (Ascii.eqb_spec c' ","); simpl andb;
    cbv iota; try done.
  subst. apply IH.
Qed.

Lemma collapse_commas_Forall (P : ascii -> Prop) (s : list ascii) :
  Forall P s -> Forall P (collapse_commas s).
Proof.
  induction 1 as [|c s Hc Hs IH]; [constructor|].
  destruct s as [|c' s']; [by constructor|].
  rewrite collapse_commas_cons.
  destruct (Ascii.eqb c "," && Ascii.eqb c' ","); [done|by constructor].
Qed.

Lemma collapse_commas_no_pair (s a b : list ascii) :
  collapse_commas s <> a ++ "," :: "," :: b.
Proof.
  revert a. induction s as [|c s IH]; intros a.
  - by destruct a.
  - destruct s as [|c' s'].
    + destruct a as [|? [|? ?]]; discriminate.
    + rewrite collapse_commas_cons.
      destruct (Ascii.eqb c "," && Ascii.eqb c' ",") eqn:E; [apply IH|].
      destruct a as [|x a]; simpl app.
      * intros H. injection H as -> H.
        change (collapse_commas (c' :: s') = "," :: b) in H.
        pose proof (collapse_commas_head c' s') as Hh. rewrite H in Hh.
        injection Hh as <-. discriminate.
      * intros H. injection H as _ H. by apply IH in H.
Qed.

Lemma collapse_commas_id (s : list ascii) :
  (forall a b, s <> a ++ "," :: "," :: b) -> collapse_commas s = s.
Proof.
  induction s as [|c s IH]; intros Hs; [done|].
  destruct s as [|c' s']; [done|].
  rewrite collapse_commas_cons.
  assert (Ht : collapse_commas (c' :: s') = c' :: s').
  { apply IH. intros a b E. apply (Hs (c :: a) b). by rewrite E. }
  destruct (Ascii.eqb_spec c ","), (Ascii.eqb_spec c' ","); simpl andb;
    cbv iota; try (by rewrite Ht).
  subst. by destruct (Hs [] s').
Qed.

Lemma filter_all (P : ascii -> Prop) `{!forall c, Decision (P c)}
    (l : list ascii) :
  Forall P l -> filter P l = l.
Proof.
  induction 1 as [|x l Hx _ IH]; [done|]. by rewrite filter_cons_True, IH.
Qed.

(** X3.  What [formatTaxa] leaves in the field: digits and commas only, no
    comma in front, no two commas in a row; formatting it again changes
    nothing. *)
Theorem formatTaxa_shape (s : list ascii) :
  Forall (fun c => is_digit c = true \/ c = ",") (formatTaxa s)
  /\ head (formatTaxa s) <> Some ","
  /\ (forall a b, formatTaxa s <> a ++ "," :: "," :: b)
  /\ formatTaxa (formatTaxa s) = formatTaxa s.
Proof.
  assert (H : Forall (fun c => is_digit c = true \/ c = ",") (formatTaxa s)
              /\ head (formatTaxa s) <> Some ","
              /\ (forall a b, formatTaxa s <> a ++ "," :: "," :: b)).
  { unfold formatTaxa. set (k := filter _ s).
    assert (Hk : Forall (fun c => is_digit c = true \/ c = ",") k).
    { apply Forall_forall. by intros c [Hc _]%list_elem_of_filter. }
    pose proof (collapse_commas_Forall _ _ Hk) as Hc.
    pose proof (collapse_commas_no_pair k) as Hp.
    destruct (collapse_commas k) as [|x c']; simpl.
    { split; [constructor|]. split; [done|]. intros a b. by destruct a. }
    destruct (Ascii.eqb_spec x ",") as [->|Hx].
    - split; [by apply Forall_cons in Hc as [_ Hc]|]. split.
      + destruct c' as [|y c'']; simpl; [done|].
        intros E. injection E as ->. by apply (Hp [] c'').
      + intros a b E. apply (Hp ("," :: a) b). by rewrite E.
    - split; [done|]. split; [simpl; congruence|apply Hp]. }
  destruct H as (H1 & H2 & H3). repeat split; try done.
  unfold formatTaxa at 1.
  rewrite filter_all, collapse_commas_id by done.
  destruct (formatTaxa s) as [|x l]; simpl; [done|].
  destruct (Ascii.eqb_spec x ",") as [->|]; [by destruct H2|done].
Qed.

(** The texts of the rate pattern: digits, then possibly a comma and up to
    two digits. *)
Lemma matches_taxa (s : list ascii) :
  matches taxa_re s <->
  exists ip, digits ip
             /\ (s = ip
                 \/ exists fp, digits fp /\ (length fp <= 2)%nat
                               /\ s = ip ++ "," :: fp).
Proof.
  unfold taxa_re, Opt. split.
  - intros (ip & r & -> & Hip%matches_star_digit & Hr)%matches_cat_inv.
    exists ip. split; [done|].
    apply matches_alt_inv in Hr as [Hr| ->%matches_eps_inv].
    + apply matches_cat_inv in Hr
        as (c & fp & -> & ->%matches_chr_inv & [Hl Hd]%matches_upto_digit).
      right. by exists fp.
    + left. by rewrite app_nil_r.
  - intros (ip & Hip & [->|(fp & Hfp & Hl & ->)]).
    + rewrite <- (app_nil_r ip). apply m_cat; [by apply matches_star_digit|].
      apply m_alt_r. constructor.
    + apply m_cat; [by apply matches_star_digit|]. apply m_alt_l.
      apply (m_cat _ _ [","] fp); [constructor|].
      by apply matches_upto_digit.
Qed.

Lemma comma_to_dot_no_comma (ds : list ascii) :
  digits ds -> comma_to_dot ds = ds.
Proof.
  induction 1 as [|c ds Hc _ IH]; simpl; [done|].
  by rewrite (digit_not_comma c Hc), IH.
Qed.

(** X4.  A text the schema accepts as a rate is left as typed, but for a comma
    in front, which is dropped. *)
Theorem formatTaxa_accepted (s : list ascii) :
  matches taxa_re s -> formatTaxa s = drop_leading_comma s.
Proof.
  intros (ip & Hip & Hs)%matches_taxa. unfold formatTaxa.
  assert (Hf : filter (fun c => is_digit c = true \/ c = ",") s = s).
  { apply filter_all.
    destruct Hs as [->|(fp & Hfp & _ & ->)].
    - eapply Forall_impl; [exact Hip|]. auto.
    - apply Forall_app. split; [eapply Forall_impl; [exact Hip|]; auto|].
      constructor; [by right|]. eapply Forall_impl; [exact Hfp|]. auto. }
  rewrite Hf. f_equal. apply collapse_commas_id. intros a b E.
  assert (Hno : forall ds x y, digits ds -> ds <> x ++ "," :: y).
  { intros ds x y Hds Eds. rewrite Eds in Hds.
    apply Forall_app in Hds as [_ Hds]. apply Forall_cons in Hds as [Hc _].
    discriminate. }
  destruct Hs as [->|(fp & Hfp & _ & ->)]; [by apply Hno in E|].
  clear Hf. revert a E.
  induction Hip as [|c ip Hc Hip IH]; intros a E; simpl in E.
  - destruct a as [|x a]; simpl in E.
    + injection E as E. rewrite E in Hfp. apply Forall_cons in Hfp as [Hc _].
      discriminate.
    + injection E as _ E. by apply Hno in E.
  - destruct a as [|x a]; simpl in E.
    + assert (E1 : c = ",") by congruence. rewrite E1 in Hc. discriminate Hc.
    + injection E as _ E. by apply IH in E.
Qed.
End Taxa.

(** ** The rate and period fields of the schema *)

Section Fields.
Local Open Scope list_scope.
Local Open Scope char_scope.
Local Open Scope Q_scope.

Lemma Number_decimal_point (ip fp : list ascii) :
  digits ip -> digits fp -> ip ++ fp <> [] ->
  Number (ip ++ "." :: fp)
  = fin (inject_Z (decimal ip)
         + inject_Z (decimal fp) / inject_Z (10 ^ Z.of_nat (length fp))).
Proof.
  intros Hip Hfp Hne. unfold Number. rewrite split_dot_digits by done.
  simpl default. apply digits_forallb in Hip, Hfp. rewrite Hip, Hfp.
  simpl andb. cbv iota.
  destruct ip as [|c ip]; [|done]. destruct fp as [|c fp]; done.
Qed.

Lemma positive_fin (q : Q) : positive (fin q) = true <-> 0 < q.
Proof. unfold positive, fin. rewrite gtb_Fin_0. by rewrite Qred_correct. Qed.

(** X5.  The rate field: a text [ip] or [ip,fp] of digits with at most two
    decimals is read as the decimal number it writes and accepted when that
    number is positive; a text that writes zero, a lone comma or the empty
    text are turned down as not positive, any other text as malformed. *)
Theorem taxa_field_spec (val : string) :
  (forall ip fp,
     digits ip -> digits fp -> (length fp <= 2)%nat ->
     chars val = ip ++ "," :: fp ->
     let q := inject_Z (decimal ip)
              + inject_Z (decimal fp) / inject_Z (10 ^ Z.of_nat (length fp)) in
     (0 < q -> taxa_field val = Valid (fin q))
     /\ (q <= 0 -> taxa_field val = Invalid "A taxa deve ser maior que zero"))
  /\ (digits (chars val) ->
      let z := decimal (chars val) in
      ((0 < z)%Z -> taxa_field val = Valid (of_Z z))
      /\ ((z <= 0)%Z ->
          taxa_field val = Invalid "A taxa deve ser maior que zero"))
  /\ (~ matches taxa_re (chars val) ->
      taxa_field val
      = Invalid "A taxa deve ser um número e pode conter uma vírgula").
Proof.
  split; [|split].
  - intros ip fp Hip Hfp Hl E q. unfold taxa_field.
    assert (Hm : test taxa_re (chars val) = true).
    { apply test_matches, matches_taxa. exists ip. split; [done|].
      right. by exists fp. }
    rewrite Hm. unfold to_number. rewrite E.
    assert (Hr : remove_dots (ip ++ "," :: fp) = ip ++ "," :: fp).
    { rewrite remove_dots_app, remove_dots_digits by done. simpl.
      by rewrite remove_dots_digits. }
    rewrite Hr, comma_to_dot_digits by done.
    destruct (decide (ip ++ fp = [])) as [Hnil|Hne].
    + apply app_eq_nil in Hnil as [-> ->]. split; [intros Hq; by vm_compute in Hq|].
      done.
    + rewrite Number_decimal_point by done. fold q. split.
      * intros Hq. by rewrite (proj2 (positive_fin q) Hq).
      * intros Hq. destruct (positive (fin q)) eqn:Ep; [|done].
        apply positive_fin in Ep. lra.
  - intros Hd z. unfold taxa_field.
    assert (Hm : test taxa_re (chars val) = true).
    { apply test_matches, matches_taxa. exists (chars val). by split; [|left]. }
    rewrite Hm. unfold to_number.
    rewrite remove_dots_digits, comma_to_dot_no_comma by done.
    destruct (chars val) as [|c l] eqn:E.
    + split; [intros Hz; by vm_compute in Hz|done].
    + rewrite Number_digits by done. fold z. unfold positive, of_Z. split.
      * intros Hz. rewrite (proj2 (gtb_Fin_0 _)); [done|].
        change 0 with (inject_Z 0). by rewrite <- Zlt_Qlt.
      * intros Hz. destruct (gtb _ _) eqn:Ep; [|done].
        apply gtb_Fin_0 in Ep. change 0 with (inject_Z 0) in Ep.
        rewrite <- Zlt_Qlt in Ep. lia.
  - intros Hn. unfold taxa_field.
    destruct (test taxa_re (chars val)) eqn:E; [|done].
    by apply test_matches in E.
Qed.

Lemma matches_periodo (s : list ascii) :
  matches periodo_re s <-> digits s /\ s <> [].
Proof.
  unfold periodo_re, Plus. split.
  - intros (s1 & s2 & -> & (c & -> & Hc)%matches_digit_inv
            & Hs%matches_star_digit)%matches_cat_inv.
    split; [by constructor|done].
  - intros [Hd Hne]. destruct s as [|c l]; [done|].
    apply Forall_cons in Hd as [Hc Hd].
    apply (m_cat _ _ [c] l); [by constructor|by apply matches_star_digit].
Qed.

Lemma periodo_field_positive (val : string) :
  digits (chars val) -> chars val <> [] -> (0 < decimal (chars val))%Z ->
  periodo_field val = Valid (of_Z (decimal (chars val))).
Proof.
  intros Hd Hne Hz. unfold periodo_field.
  rewrite (proj2 (test_matches _ _) (proj2 (matches_periodo _) (conj Hd Hne))).
  rewrite Number_digits by done. unfold positive, of_Z.
  rewrite (proj2 (gtb_Fin_0 _)); [done|].
  change 0 with (inject_Z 0). by rewrite <- Zlt_Qlt.
Qed.

(** X6.  The period field: a non-empty text of digits is read as the number it
    writes and accepted when that number is not zero; a text of zeros is
    turned down as not positive, any other text as malformed. *)
Theorem periodo_field_spec (val : string) :
  let z := decimal (chars val) in
  (digits (chars val) -> chars val <> [] ->
   ((0 < z)%Z -> periodo_field val = Valid (of_Z z))
   /\ (z = 0%Z ->
       periodo_field val = Invalid "O período deve ser maior que zero"))
  /\ (~ (digits (chars val) /\ chars val <> []) ->
      periodo_field val
      = Invalid "O período deve ser um número inteiro positivo").
Proof.
  intros z. split.
  - intros Hd Hne. split.
    + by apply periodo_field_positive.
    + intros Hz. unfold periodo_field.
      rewrite (proj2 (test_matches _ _) (proj2 (matches_periodo _) (conj Hd Hne))).
      rewrite Number_digits by done. fold z. by rewrite Hz.
  - intros Hn. unfold periodo_field.
    destruct (test periodo_re (chars val)) eqn:E; [|done].
    apply test_matches, matches_periodo in E. done.
Qed.

(** X7.  The period field after its effect, which keeps the digits typed: it
    holds digits only, is left as it is by the effect, and is accepted by the
    schema, as the number it writes, when that number is not zero. *)
Theorem formatPeriodo_accepted (s : list ascii) :
  (0 < decimal (formatPeriodo s))%Z ->
  digits (formatPeriodo s)
  /\ formatPeriodo (formatPeriodo s) = formatPeriodo s
  /\ periodo_field (string_of_list_ascii (formatPeriodo s))
     = Valid (of_Z (decimal (formatPeriodo s))).
Proof.
  intros Hz. assert (Hd : digits (formatPeriodo s)) by apply digits_filter.
  split; [done|]. split; [by apply filter_digits|].
  assert (Hc : chars (string_of_list_ascii (formatPeriodo s)) = formatPeriodo s)
    by apply list_ascii_of_string_of_list_ascii.
  rewrite <- Hc at 2. apply periodo_field_positive; rewrite Hc; [done| |done].
  intros E. rewrite E in Hz. by vm_compute in Hz.
Qed.
End Fields.

(** ** What the fetchers keep *)

Section Fetch.
Local Open Scope list_scope.

Lemma collect_snoc (keep : item -> item) (value : list item) (x : item) :
  collect keep (value ++ [x])
  = let results := collect keep value in
    match results !! DataReferencia x with
    | Some atual =>
        if (Data atual <? Data x)%Z
        then <[DataReferencia x := keep x]> results
        else results
    | None => <[DataReferencia x := keep x]> results
    end.
Proof. unfold collect. by rewrite fold_left_app. Qed.

Lemma first_latest_max (value : list item) (y : Z) (it : item) :
  first_latest value y it ->
  forall it', it' ∈ value -> DataReferencia it' = y -> (Data it' <= Data it)%Z.
Proof.
  intros (before & after & -> & Hy & Hb & Ha) it' Hin Hy'.
  apply elem_of_app in Hin as [Hin|Hin]; [specialize (Hb it' Hin Hy'); lia|].
  apply elem_of_cons in Hin as [->|Hin]; [lia|by apply Ha].
Qed.

Lemma first_latest_snoc (value : list item) (y : Z) (it x : item) :
  first_latest value y it ->
  (DataReferencia x = y -> (Data x <= Data it)%Z) ->
  first_latest (value ++ [x]) y it.
Proof.
  intros (before & after & -> & Hy & Hb & Ha) Hx.
  exists before, (after ++ [x]). split; [by rewrite <- app_assoc|].
  split; [done|]. split; [done|].
  intros it' [Hin| ->%list_elem_of_singleton]%elem_of_app Hy';
    [by apply Ha|by apply Hx].
Qed.

Lemma first_latest_new (value : list item) (x : item) :
  (forall it', it' ∈ value -> DataReferencia it' = DataReferencia x ->
               (Data it' < Data x)%Z) ->
  first_latest (value ++ [x]) (DataReferencia x) x.
Proof.
  intros H. exists value, []. split; [done|]. split; [done|].
  split; [done|]. by intros it' Hin%elem_of_nil.
Qed.

Lemma collect_latest (keep : item -> item) (value : list item) :
  (forall it, Data (keep it) = Data it) ->
  forall y,
    (collect keep value !! y = None
     <-> forall it, it ∈ value -> DataReferencia it <> y)
    /\ (forall stored,
          collect keep value !! y = Some stored ->
          exists it, first_latest value y it /\ stored = keep it).
Proof.
  intros Hkeep. induction value as [|x value IH] using rev_ind; intros y.
  { split.
    - split; [by intros _ it Hit%elem_of_nil|by intros _].
    - intros stored H. unfold collect in H. simpl in H.
      by rewrite lookup_empty in H. }
  rewrite collect_snoc. cbv zeta.
  destruct (IH y) as [HN HS]. destruct (IH (DataReferencia x)) as [HNx HSx].
  assert (Hnone : collect keep value !! y = None ->
                  DataReferencia x <> y ->
                  forall it, it ∈ value ++ [x] -> DataReferencia it <> y).
  { intros E Hne it [Hin| ->%list_elem_of_singleton]%elem_of_app;
      [by apply HN|done]. }
  assert (Hback : (forall it, it ∈ value ++ [x] -> DataReferencia it <> y) ->
                  collect keep value !! y = None).
  { intros H. apply HN. intros it Hin. apply H, elem_of_app. by left. }
  assert (Hx : x ∈ value ++ [x])
    by (apply elem_of_app; right; by apply list_elem_of_singleton).
  assert (Hother : DataReferencia x <> y ->
                   forall stored,
                     collect keep value !! y = Some stored ->
                     exists it, first_latest (value ++ [x]) y it
                                /\ stored = keep it).
  { intros Hne stored E. destruct (HS stored E) as (it & Hit & ->).
    exists it. split; [|done]. by apply first_latest_snoc. }
  assert (Hnew :
            (forall it', it' ∈ value ->
                         DataReferencia it' = DataReferencia x ->
                         (Data it' < Data x)%Z) ->
            (<[DataReferencia x := keep x]> (collect keep value) !! y = None
             <-> forall it, it ∈ value ++ [x] -> DataReferencia it <> y)
            /\ (forall stored,
                  <[DataReferencia x := keep x]> (collect keep value) !! y
                  = Some stored ->
                  exists it, first_latest (value ++ [x]) y it
                             /\ stored = keep it)).
  { intros Hlt. destruct (decide (DataReferencia x = y)) as [<-|Hne].
    - rewrite lookup_insert_eq. split.
      + split; [done|]. intros H. by destruct (H x Hx).
      + intros stored E. injection E as <-. exists x.
        split; [by apply first_latest_new|done].
    - rewrite lookup_insert_ne by done. split.
      + split; [by intros E; apply Hnone|done].
      + by apply Hother. }
  destruct (collect keep value !! DataReferencia x) as [atual|] eqn:Ex.
  - destruct (HSx atual eq_refl) as (it0 & Hit0 & ->).
    rewrite Hkeep. destruct (Z.ltb_spec (Data it0) (Data x)) as [Hlt|Hge].
    + apply Hnew. intros it' Hin' Hy'.
      pose proof (first_latest_max _ _ _ Hit0 it' Hin' Hy'). lia.
    + destruct (decide (DataReferencia x = y)) as [<-|Hne].
      * split.
        -- split; [by rewrite Ex|]. intros H. by destruct (H x Hx).
        -- intros stored E. rewrite Ex in E. injection E as <-.
           exists it0. split; [|done]. by apply first_latest_snoc.
      * split; [|by apply Hother].
        split; [by intros E; apply Hnone|done].
  - apply Hnew. intros it' Hin' Hy'. by destruct (proj1 HNx eq_refl it' Hin').
Qed.

End Fetch.

(** ** When an indexed calculation completes *)

Section Completes.
Local Open Scope list_scope.



Lemma collect_nonempty (keep : item -> item) (value : list item) :
  (forall it, Data (keep it) = Data it) ->
  value <> [] -> collect keep value <> ∅.
Proof.
  intros Hkeep Hne E. destruct value as [|x value]; [done|].
  destruct (collect_latest keep (x :: value) Hkeep (DataReferencia x))
    as [HN _].
  rewrite E, lookup_empty in HN. by destruct (proj1 HN eq_refl x); [left|].
Qed.



(** X11.  In the last branch (CDI) the period chosen for the rate is not read:
    the calculation is the same whatever [vencimento] holds. *)
Theorem cdi_ignores_vencimento (env : Env) (v : MoneyValues) (st : App)
    (venc1 venc2 : string) :
  tipoDeTaxa v <> "prefixado" ->
  tipoDeTaxa v <> "ipca+" ->
  calculate env (com_vencimento v venc1) st
  = calculate env (com_vencimento v venc2) st.
Proof.
  intros Hpre%String.eqb_neq Hipca%String.eqb_neq.
  rewrite !calculate_conclui. unfold projecao. simpl.
  by rewrite Hpre, Hipca.
Qed.
End Completes.

(** ** Amounts that can only grow *)

Section Growth.
Local Open Scope list_scope.
Local Open Scope Q_scope.

Lemma capitaliza_Fin (r M x g : Q) :
  capitaliza (Fin r) (Fin M) (Fin x) (Fin g)
  = fin ((g + M) * (1 + ((1 + r) * (1 + x / 12 / 100) - 1))).
Proof.
  unfold capitaliza. rewrite !div_FF by done.
  rewrite !add_FF, mul_FF, sub_FF, add_FF, mul_FF. fin_eq. reflexivity.
Qed.

Lemma meses_loop_grows rate today (r M : Q) count :
  0 <= r -> 0 <= M ->
  (forall ano, exists q, rate ano = Some (Fin q) /\ 0 <= q) ->
  forall i g a,
    0 <= a -> a <= g ->
    exists g' a',
      meses_loop rate today (Fin r) (Fin M) i count (Fin g, Fin a)
      = Some (Fin g', Fin a')
      /\ 0 <= a' /\ a' <= g'.
Proof.
  intros Hr HM Hrate. induction count as [|count IH]; intros i g a Ha Hag.
  - by exists g, a.
  - simpl. destruct (Hrate (ano_apos today i)) as (x & -> & Hx).
    rewrite capitaliza_Fin, add_FF. unfold fin. apply IH.
    + rewrite Qred_correct. lra.
    + rewrite !Qred_correct.
      assert (Hu : 0 <= x / 12 / 100).
      { apply Qle_shift_div_l; [done|]. rewrite Qmult_0_l.
        apply Qle_shift_div_l; [done|]. by rewrite Qmult_0_l. }
      set (u := x / 12 / 100) in *. clearbody u.
      assert (He : 0 <= (1 + r) * (1 + u) - 1) by nra.
      assert (0 <= (g + M) * ((1 + r) * (1 + u) - 1))
        by (apply Qmult_le_0_compat; lra).
      lra.
Qed.

(** X13.  With forecasts, deposit, contribution and real rate that are not
    negative, the ipca+ branch never ends below the money paid in: when the
    gross amount, the principal accumulated by the loop and the net amount
    are finite, principal <= net <= gross. *)
Theorem ipca_no_loss (env : Env) (v : MoneyValues) (st : App)
    (value : list item) (P M t : Q) (log : list string) (g i m : Q) :
  tipoDeTaxa v = "ipca+" ->
  axios_get env IPCA = Some value ->
  value <> [] ->
  (forall it, it ∈ value -> exists q, Media it = Fin q /\ 0 <= q) ->
  to_number (aporteInicial v) = Fin P -> 0 <= P ->
  to_number (aporteMensal v) = Fin M -> 0 <= M ->
  to_number (taxa v) = Fin t -> 0 <= t ->
  projecao env v = (log, inl (Fin g, Fin i)) ->
  result (calculate env v st).1
  = Some {| montanteBruto := Fin g; montanteLiquido := Fin m |} ->
  i <= m /\ m <= g.
Proof.
  intros Htipo Hget Hne Hmedia HP HP0 HM HM0 Ht Ht0 Hp Hres.
  rewrite calculate_conclui, Hp in Hres. simpl in Hres.
  rewrite liquido_de_Fin in Hres. injection Hres as Hm.
  assert (Hig : i <= g).
  { unfold projecao, taxaValue_de in Hp.
    rewrite Htipo, Hget, HP, HM, Ht in Hp. simpl String.eqb in Hp.
    cbv iota in Hp. rewrite converter_taxa_Fin in Hp.
    unfold indexado, fin in Hp.
    set (table := collect id value) in *.
    assert (Htable : forall y it, table !! y = Some it ->
                                  exists q, Media it = Fin q /\ 0 <= q).
    { intros y it Hy.
      destruct (proj2 (collect_latest id value (fun _ => eq_refl) y) it Hy)
        as (it' & (before & after & E & _) & ->).
      apply Hmedia. rewrite E. apply elem_of_app. right. by left. }
    destruct (max_year_exists table) as (y & Hy).
    { by apply collect_nonempty. }
    rewrite (Math_max_keys _ y Hy) in Hp.
    assert (Hr : 0 <= Qred (monthly_rate (vencimento v) t)).
    { rewrite Qred_correct. unfold monthly_rate.
      destruct (String.eqb (vencimento v) "meses").
      - apply Qle_shift_div_l; [done|]. by rewrite Qmult_0_l.
      - apply Qle_shift_div_l; [done|]. rewrite Qmult_0_l.
        apply Qle_shift_div_l; [done|]. by rewrite Qmult_0_l. }
    destruct (meses_loop_grows (ipca_rate table (of_Z y)) (today env)
                (Qred (monthly_rate (vencimento v) t)) M (meses_de v) Hr HM0)
      with (i := 1%nat) (g := P) (a := P)
      as (g' & a' & Hloop & Ha0 & Hag); [|done|lra|].
    { intros ano. unfold ipca_rate.
      destruct (table !! ano) as [it|] eqn:E.
      - destruct (Htable _ _ E) as (q & -> & Hq). by exists q.
      - rewrite prop_of_Z. destruct (proj1 Hy) as [it Hit]. rewrite Hit.
        simpl. destruct (Htable _ _ Hit) as (q & -> & Hq). by exists q. }
    rewrite Hloop in Hp. injection Hp as _ <- <-. done. }
  rewrite <- Hm. destruct (String.eqb (isentoDeImposto v) "sim");
    rewrite ?Qred_correct; split; lra.
Qed.
End Growth.

(** ** The money fields as the user types *)

Section DecimalText.
Local Open Scope list_scope.
Local Open Scope char_scope.

Lemma fold_decimal (ds : list ascii) (acc : Z) :
  fold_left (fun a c => (10 * a + digit_value c)%Z) ds acc
  = (acc * 10 ^ Z.of_nat (length ds) + decimal ds)%Z.
Proof.
  unfold decimal. revert acc. induction ds as [|c ds IH]; intros acc.
  - simpl. lia.
  - cbn [fold_left length]. rewrite IH, (IH (10 * 0 + digit_value c)%Z).
    rewrite Nat2Z.inj_succ, Z.pow_succ_r by lia. lia.
Qed.

Lemma decimal_app (a b : list ascii) :
  decimal (a ++ b)
  = (decimal a * 10 ^ Z.of_nat (length b) + decimal b)%Z.
Proof. unfold decimal at 1. by rewrite fold_left_app, fold_decimal. Qed.

Lemma digit_char_spec (d : Z) :
  (0 <= d <= 9)%Z ->
  is_digit (digit_char d) = true /\ digit_value (digit_char d) = d.
Proof.
  intros H.
  assert (d = 0 \/ d = 1 \/ d = 2 \/ d = 3 \/ d = 4 \/ d = 5 \/ d = 6
          \/ d = 7 \/ d = 8 \/ d = 9)%Z as Hd by lia.
  repeat (destruct Hd as [->|Hd]; [done|]). by subst.
Qed.

Lemma write_decimal_S (fuel : nat) (n : Z) (acc : list ascii) :
  write_decimal (S fuel) n acc
  = if (n <? 10)%Z then digit_char (n mod 10) :: acc
    else write_decimal fuel (n / 10) (digit_char (n mod 10) :: acc).
Proof. done. Qed.

Lemma write_decimal_spec (fuel : nat) :
  forall n acc,
    (0 <= n < 2 ^ (Z.of_nat fuel + 1))%Z ->
    exists ds,
      write_decimal (S fuel) n acc = ds ++ acc
      /\ digits ds /\ ds <> [] /\ decimal ds = n.
Proof.
  induction fuel as [|fuel IH]; intros n acc Hn.
  - exists [digit_char n].
    assert (Hlt : (n <? 10)%Z = true) by (apply Z.ltb_lt; simpl in Hn; lia).
    rewrite write_decimal_S, Hlt, Z.mod_small by (simpl in Hn; lia).
    destruct (digit_char_spec n) as [H1 H2]; [simpl in Hn; lia|].
    split; [done|]. split; [by repeat constructor|]. split; [done|].
    unfold decimal. simpl. lia.
  - rewrite write_decimal_S. destruct (Z.ltb_spec n 10) as [Hlt|Hge].
    + exists [digit_char n]. rewrite Z.mod_small by lia.
      destruct (digit_char_spec n) as [H1 H2]; [lia|].
      split; [done|]. split; [by repeat constructor|]. split; [done|].
      unfold decimal. simpl. lia.
    + destruct (IH (n / 10)%Z (digit_char (n mod 10) :: acc))
        as (ds & E & Hd & Hne & Hv).
      { split; [apply Z.div_pos; lia|].
        apply Z.div_lt_upper_bound; [lia|].
        replace (Z.of_nat (S fuel) + 1)%Z with (Z.of_nat fuel + 1 + 1)%Z in Hn
          by lia.
        rewrite Z.pow_add_r in Hn by lia. lia. }
      exists (ds ++ [digit_char (n mod 10)]).
      destruct (digit_char_spec (n mod 10)) as [H1 H2].
      { pose proof (Z.mod_pos_bound n 10). lia. }
      split; [by rewrite E, <- app_assoc|].
      split; [apply Forall_app; split; [done|by repeat constructor]|].
      split; [by destruct ds|].
      rewrite decimal_app, Hv. unfold decimal. simpl. rewrite H2.
      pose proof (Z.div_mod n 10). lia.
Qed.

Lemma decimal_digits_spec (n : Z) :
  (0 <= n)%Z ->
  digits (decimal_digits n) /\ decimal_digits n <> []
  /\ decimal (decimal_digits n) = n.
Proof.
  intros Hn. unfold decimal_digits.
  destruct (write_decimal_spec (Z.to_nat (Z.log2 n)) n [])
    as (ds & -> & H); [|by rewrite app_nil_r].
  split; [done|]. rewrite Z2Nat.id by apply Z.log2_nonneg.
  destruct (decide (n = 0%Z)) as [->|Hne]; [done|].
  replace (Z.log2 n + 1)%Z with (Z.succ (Z.log2 n)) by lia.
  apply Z.log2_spec. lia.
Qed.
End DecimalText.

Section Cents.
Local Open Scope list_scope.
Local Open Scope char_scope.
Local Open Scope Q_scope.

Lemma Qle_bool_false (a b : Q) : b < a -> Qle_bool a b = false.
Proof.
  intros H. destruct (Qle_bool a b) eqn:E; [|done].
  apply Qle_bool_iff in E. lra.
Qed.

Lemma Qfloor_unique (z : Z) (x : Q) :
  inject_Z z <= x -> x < inject_Z (z + 1) -> Qfloor x = z.
Proof.
  intros H1 H2. pose proof (Qfloor_resp_le _ _ H1) as H3.
  rewrite Qfloor_Z in H3. pose proof (Qfloor_le x) as H4.
  assert (H5 : inject_Z (Qfloor x) < inject_Z (z + 1)) by lra.
  rewrite <- Zlt_Qlt in H5. lia.
Qed.

(** [toFixed(2)] of a whole number of hundredths writes it exactly. *)
Lemma toFixed2_cents (N : Z) :
  (0 <= N < 10 ^ 23)%Z ->
  toFixed2 (of_Z N / Fin 100)%num
  = Some (decimal_digits (N / 100)
          ++ ["."; digit_char (N mod 100 / 10); digit_char (N mod 10)]).
Proof.
  intros [H0 Hb]. unfold of_Z. rewrite div_FF by done. unfold toFixed2.
  set (q := Qred (inject_Z N / 100)).
  assert (Hq : q == inject_Z N / 100) by apply Qred_correct.
  rewrite Zle_Qle in H0. rewrite Zlt_Qlt in Hb.
  change (inject_Z 0) with 0 in H0.
  assert (Hq0 : 0 <= q).
  { rewrite Hq. apply Qle_shift_div_l; [done|]. by rewrite Qmult_0_l. }
  assert (Ha : Qabs q == inject_Z N / 100) by (by rewrite Qabs_pos).
  assert (Hbig : Qle_bool (inject_Z (10 ^ 21)) (Qabs q) = false).
  { apply Qle_bool_false. rewrite Ha. apply Qlt_shift_div_r; [done|].
    change (inject_Z (10 ^ 21) * 100) with (inject_Z (10 ^ 23)). done. }
  rewrite Hbig.
  assert (Hn : Qfloor (Qabs q * 100 + (1 # 2)) = N).
  { assert (E : Qabs q * 100 == inject_Z N) by (rewrite Ha; field).
    apply Qfloor_unique; rewrite ?inject_Z_plus, E;
      change (inject_Z 1) with 1; lra. }
  by rewrite Hn, (proj2 (Qle_bool_iff 0 q) Hq0).
Qed.
End Cents.

Section Grouping.
Local Open Scope list_scope.
Local Open Scope char_scope.

Lemma is_word_digit (c : ascii) : is_digit c = true -> is_word c = true.
Proof. intros H. unfold is_word. by rewrite H. Qed.

Lemma digit_run_app (ds rest : list ascii) :
  digits ds -> digit_run (ds ++ rest) = (length ds + digit_run rest)%nat.
Proof.
  induction 1 as [|c ds Hc _ IH]; simpl; [done|]. by rewrite Hc, IH.
Qed.

Lemma group_thousands_cons (prev : bool) (c : ascii) (s : list ascii) :
  group_thousands prev (c :: s)
  = if Bool.eqb prev (is_word c) && (0 <? digit_run (c :: s))%nat
       && (digit_run (c :: s) mod 3 =? 0)%nat
    then "." :: c :: group_thousands (is_word c) s
    else c :: group_thousands (is_word c) s.
Proof. done. Qed.

(** Inside a number, a digit followed by [n] more digits gets a dot in front
    exactly when [n + 1] is a multiple of three. *)
Lemma group_thousands_digit (c : ascii) (ds rest : list ascii) :
  is_digit c = true -> digits ds -> digit_run rest = 0%nat ->
  group_thousands true (c :: ds ++ rest)
  = if (S (length ds) mod 3 =? 0)%nat
    then "." :: c :: group_thousands true (ds ++ rest)
    else c :: group_thousands true (ds ++ rest).
Proof.
  intros Hc Hds Hrest. rewrite group_thousands_cons.
  rewrite (is_word_digit c Hc).
  change (c :: ds ++ rest) with ((c :: ds) ++ rest).
  rewrite digit_run_app, Hrest by (by constructor).
  simpl length. rewrite Nat.add_0_r. done.
Qed.

Lemma group_thousands_triples (k : nat) :
  forall ds rest,
    length ds = (3 * k)%nat -> digits ds -> digit_run rest = 0%nat ->
    exists groups,
      concat groups = ds
      /\ Forall (fun g => length g = 3%nat /\ digits g) groups
      /\ group_thousands true (ds ++ rest)
         = concat (map (cons ".") groups) ++ group_thousands true rest.
Proof.
  induction k as [|k IH]; intros ds rest Hl Hd Hrest.
  - destruct ds; [|discriminate]. exists []. by repeat split.
  - destruct ds as [|a [|b [|c ds]]]; try (simpl in Hl; lia).
    apply Forall_cons in Hd as [Ha Hd]. apply Forall_cons in Hd as [Hb Hd].
    apply Forall_cons in Hd as [Hc Hd].
    destruct (IH ds rest) as (groups & Hcat & Hg & E);
      [simpl in Hl; lia|done|done|].
    exists ([a; b; c] :: groups). split; [simpl; by rewrite Hcat|].
    split; [constructor; [split; [done|by repeat constructor]|done]|].
    assert (Hlen : length ds = (3 * k)%nat) by (simpl in Hl; lia).
    change ((a :: b :: c :: ds) ++ rest) with (a :: (b :: c :: ds) ++ rest).
    rewrite (group_thousands_digit a (b :: c :: ds)) by (by repeat constructor).
    change ((b :: c :: ds) ++ rest) with (b :: (c :: ds) ++ rest).
    rewrite (group_thousands_digit b (c :: ds)) by (by repeat constructor).
    change ((c :: ds) ++ rest) with (c :: ds ++ rest).
    rewrite (group_thousands_digit c ds) by done.
    cbn [length]. rewrite Hlen.
    replace (S (S (S (3 * k))) mod 3)%nat with 0%nat
      by (symmetry; apply Nat.Div0.mod_divides; exists (S k); lia).
    replace (S (S (3 * k)) mod 3)%nat with 2%nat.
    2: { replace (S (S (3 * k))) with (2 + k * 3)%nat by lia.
         by rewrite Nat.Div0.mod_add. }
    replace (S (3 * k) mod 3)%nat with 1%nat.
    2: { replace (S (3 * k)) with (1 + k * 3)%nat by lia.
         by rewrite Nat.Div0.mod_add. }
    simpl Nat.eqb. cbv iota. rewrite E. done.
Qed.

(** The leading one to three digits of a number get no dot. *)
Lemma group_thousands_head (head ds rest : list ascii) (k : nat) :
  (1 <= length head <= 3)%nat -> digits head ->
  length ds = (3 * k)%nat -> digits ds -> digit_run rest = 0%nat ->
  group_thousands false (head ++ ds ++ rest)
  = head ++ group_thousands true (ds ++ rest).
Proof.
  intros Hl Hh Hk Hd Hrest.
  assert (Hfirst : forall c s, is_digit c = true ->
            group_thousands false (c :: s) = c :: group_thousands true s).
  { intros c s Hc. rewrite group_thousands_cons, (is_word_digit c Hc). done. }
  assert (Hm1 : (S (3 * k) mod 3 =? 0)%nat = false).
  { replace (S (3 * k)) with (1 + k * 3)%nat by lia.
    by rewrite Nat.Div0.mod_add. }
  assert (Hm2 : (S (S (3 * k)) mod 3 =? 0)%nat = false).
  { replace (S (S (3 * k))) with (2 + k * 3)%nat by lia.
    by rewrite Nat.Div0.mod_add. }
  destruct head as [|a [|b [|c [|]]]]; try (simpl in Hl; lia).
  - apply Forall_cons in Hh as [Ha _].
    change ([a] ++ ds ++ rest) with (a :: ds ++ rest). by rewrite Hfirst.
  - apply Forall_cons in Hh as [Ha Hh]. apply Forall_cons in Hh as [Hb _].
    change ([a; b] ++ ds ++ rest) with (a :: b :: ds ++ rest).
    rewrite Hfirst by done.
    rewrite (group_thousands_digit b ds) by done. by rewrite Hk, Hm1.
  - apply Forall_cons in Hh as [Ha Hh]. apply Forall_cons in Hh as [Hb Hh].
    apply Forall_cons in Hh as [Hc _].
    change ([a; b; c] ++ ds ++ rest) with (a :: b :: (c :: ds) ++ rest).
    rewrite Hfirst by done.
    rewrite (group_thousands_digit b (c :: ds)) by (by repeat constructor).
    change ((c :: ds) ++ rest) with (c :: ds ++ rest).
    rewrite (group_thousands_digit c ds) by done.
    cbn [length]. by rewrite Hk, Hm1, Hm2.
Qed.

(** Grouping the text of an amount, [digits,cc], gives a text of the
    currency pattern with the same digits. *)
Lemma group_thousands_amount (ds : list ascii) (c1 c2 : ascii) :
  digits ds -> ds <> [] -> digits [c1; c2] ->
  exists head groups,
    head ++ concat groups = ds
    /\ currency_text (group_thousands false (ds ++ [","; c1; c2]))
         head groups c1 c2.
Proof.
  intros Hd Hne Hc.
  set (k := ((length ds - 1) / 3)%nat).
  set (j := (length ds - 3 * k)%nat).
  assert (Hlen : (1 <= length ds)%nat) by (destruct ds; [done|simpl; lia]).
  assert (Hj : (1 <= j <= 3)%nat /\ (j + 3 * k = length ds)%nat).
  { unfold j, k. pose proof (Nat.div_mod_eq (length ds - 1) 3).
    pose proof (Nat.mod_upper_bound (length ds - 1) 3). lia. }
  destruct Hj as [Hj Hjk].
  assert (Hrest : digit_run [","; c1; c2] = 0%nat) by done.
  destruct (group_thousands_triples k (drop j ds) [","; c1; c2])
    as (groups & Hcat & Hg & E);
    [rewrite length_drop; lia|by apply Forall_drop|done|].
  exists (take j ds), groups. split; [by rewrite Hcat, take_drop|].
  assert (Htail : group_thousands true [","; c1; c2] = [","; c1; c2]).
  { apply Forall_cons in Hc as [H1 Hc]. apply Forall_cons in Hc as [H2 _].
    rewrite !group_thousands_cons.
    rewrite (is_word_digit c1 H1), (is_word_digit c2 H2). simpl.
    by rewrite H2. }
  unfold currency_text. split.
  - rewrite <- (take_drop j ds) at 1. rewrite <- app_assoc.
    rewrite (group_thousands_head _ _ _ k);
      [|rewrite length_take; lia|by apply Forall_take
       |rewrite length_drop; lia|by apply Forall_drop|done].
    by rewrite E, Htail.
  - split; [rewrite length_take; lia|].
    split; [by apply Forall_take|]. done.
Qed.
End Grouping.

Section MoneyField.
Local Open Scope list_scope.
Local Open Scope char_scope.

Lemma dot_to_comma_digits (ds rest : list ascii) :
  digits ds -> dot_to_comma (ds ++ "." :: rest) = ds ++ "," :: rest.
Proof.
  induction 1 as [|c ds Hc _ IH]; simpl; [done|].
  by rewrite (digit_not_dot c Hc), IH.
Qed.

Lemma cents_digits (N : Z) :
  (0 <= N)%Z ->
  digits [digit_char (N mod 100 / 10); digit_char (N mod 10)]
  /\ decimal [digit_char (N mod 100 / 10); digit_char (N mod 10)]
     = (N mod 100)%Z.
Proof.
  intros HN.
  destruct (digit_char_spec (N mod 100 / 10)) as [H1 V1];
    [Z.div_mod_to_equations; lia|].
  destruct (digit_char_spec (N mod 10)) as [H2 V2];
    [Z.div_mod_to_equations; lia|].
  split; [by repeat constructor|]. unfold decimal. simpl. rewrite V1, V2.
  Z.div_mod_to_equations. lia.
Qed.

(** What [formatMoney] writes for the digits typed. *)
Lemma formatMoney_value (s : list ascii) :
  let clean := filter (fun c => is_digit c = true) s in
  let N := decimal clean in
  clean <> [] -> (N < 10 ^ 23)%Z ->
  formatMoney s
  = Some (group_thousands false
            (decimal_digits (N / 100)
             ++ [","; digit_char (N mod 100 / 10); digit_char (N mod 10)])).
Proof.
  intros clean N Hne Hb. unfold formatMoney. fold clean.
  assert (Hd : digits clean) by apply digits_filter.
  assert (HN : (0 <= N)%Z) by (by apply decimal_nonneg).
  rewrite Number_digits by done. fold N.
  rewrite toFixed2_cents by done.
  destruct clean as [|c l]; [done|]. simpl.
  rewrite dot_to_comma_digits; [done|].
  apply decimal_digits_spec. Z.div_mod_to_equations. lia.
Qed.

Lemma filter_currency_text (s head : list ascii) groups c1 c2 :
  currency_text s head groups c1 c2 ->
  filter (fun c => is_digit c = true) s = head ++ concat groups ++ [c1; c2].
Proof.
  intros (-> & _ & Hh & Hg & Hc). rewrite !filter_app.
  rewrite (filter_digits head Hh). f_equal. f_equal.
  - induction Hg as [|g groups [_ Hd] _ IH]; [done|].
    cbn [map concat]. rewrite filter_app, filter_cons_False by done.
    by rewrite (filter_digits g Hd), IH.
  - rewrite filter_cons_False by done. by apply filter_digits.
Qed.

(** X14.  The text [formatMoney] puts in a money field is one the schema
    accepts as an initial deposit, read as the number written by the digits
    typed, taken as hundredths; as a monthly contribution it is accepted
    unless that number is zero. This for digits writing a number below 10^15,
    where the quotient by 100 is rounded to the cent it stands for. *)
Theorem formatMoney_accepted (s : list ascii) :
  let N := decimal (filter (fun c => is_digit c = true) s) in
  filter (fun c => is_digit c = true) s <> [] ->
  (N < 10 ^ 15)%Z ->
  exists out,
    formatMoney s = Some out
    /\ aporteInicial_field (string_of_list_ascii out)
       = Valid (fin (inject_Z N / 100)%Q)
    /\ (aporteMensal_field (string_of_list_ascii out)
        = Valid (fin (inject_Z N / 100)%Q) <-> (0 < N)%Z).
Proof.
  intros N Hne Hb. eexists.
  split; [apply formatMoney_value; [done|]; fold N; lia|].
  fold N.
  match goal with
  | |- ?A /\ _ => assert (Hini : A); [|split; [exact Hini|]]
  end;
  [|assert (Hq : (0 < inject_Z N / 100)%Q <-> (0 < N)%Z)
      by (rewrite Zlt_Qlt; change (inject_Z 0) with 0%Q; unfold Qdiv;
          change (/ 100)%Q with (1 # 100)%Q;
          generalize (inject_Z N); intros x; split; intros Hx; lra);
    rewrite aporteMensal_field_valid, positive_fin;
    split; [intros [_ Hx]; by apply Hq|intros Hx; split; [exact Hini|by apply Hq]]].
  assert (HN : (0 <= N)%Z) by apply decimal_nonneg, digits_filter.
  destruct (decimal_digits_spec (N / 100)) as (HD & HDne & HDv);
    [Z.div_mod_to_equations; lia|].
  destruct (cents_digits N HN) as [Hc Hcv].
  destruct (group_thousands_amount _ _ _ HD HDne Hc)
    as (head & groups & Hcat & Htext).
  unfold aporteInicial_field, chars.
  assert (Hconv : forall l, list_ascii_of_string (string_of_list_ascii l) = l)
    by apply list_ascii_of_string_of_list_ascii.
  rewrite Hconv.
  rewrite (proj2 (test_matches _ _)) by (apply matches_currency; eauto).
  f_equal.
  erewrite to_number_currency by (unfold chars; rewrite Hconv; exact Htext).
  apply fin_ext. rewrite Hcat, HDv, Hcv.
  assert (E : N = (100 * (N / 100) + N mod 100)%Z)
    by (pose proof (Z.div_mod N 100); lia).
  rewrite E at 3. rewrite inject_Z_plus, inject_Z_mult.
  change (inject_Z 100) with 100%Q. field.
Qed.

(** X15.  Formatting a money field again leaves it as it is. *)
Theorem formatMoney_stable (s out : list ascii) :
  (decimal (filter (fun c => is_digit c = true) s) < 10 ^ 15)%Z ->
  formatMoney s = Some out ->
  formatMoney out = Some out.
Proof.
  intros Hb Hs.
  destruct (decide (filter (fun c => is_digit c = true) s = [])) as [He|Hne].
  { unfold formatMoney in Hs. rewrite He in Hs. by injection Hs as <-. }
  set (N := decimal (filter (fun c => is_digit c = true) s)) in *.
  rewrite formatMoney_value in Hs by (done || fold N; lia). fold N in Hs.
  injection Hs as Hs.
  assert (HN : (0 <= N)%Z) by apply decimal_nonneg, digits_filter.
  destruct (decimal_digits_spec (N / 100)) as (HD & HDne & HDv);
    [Z.div_mod_to_equations; lia|].
  destruct (cents_digits N HN) as [Hc Hcv].
  destruct (group_thousands_amount _ _ _ HD HDne Hc)
    as (head & groups & Hcat & Htext).
  rewrite Hs in Htext. apply filter_currency_text in Htext.
  rewrite app_assoc, Hcat in Htext.
  assert (Hv : decimal (filter (fun c => is_digit c = true) out) = N).
  { rewrite Htext, decimal_app, HDv, Hcv. simpl length.
    change (10 ^ Z.of_nat 2)%Z with 100%Z.
    pose proof (Z.div_mod N 100). lia. }
  rewrite formatMoney_value; rewrite ?Hv; [by rewrite Hs| |fold N; lia].
  rewrite Htext. by destruct (decimal_digits (N / 100)).
Qed.
End MoneyField.

(** ** The helpers on sample inputs *)

Section HelperSamples.
Local Open Scope list_scope.
Local Open Scope Q_scope.

Lemma formatTaxa_accepted_witness :
  formatTaxa (chars ",5") = chars "5".
Proof.
  apply (formatTaxa_accepted (chars ",5")). apply test_matches. reflexivity.
Defined.

Lemma taxa_field_spec_witness :
  taxa_field "12,5" = Valid (fin (25 # 2)).
Proof.
  destruct (proj1 (taxa_field_spec "12,5") (chars "12") (chars "5"))
    as [H _]; [repeat constructor|repeat constructor|simpl; lia|reflexivity|].
  rewrite H; reflexivity.
Defined.

Lemma periodo_field_spec_witness :
  periodo_field "24" = Valid (of_Z 24).
Proof.
  destruct (proj1 (periodo_field_spec "24")) as [H _];
    [repeat constructor|discriminate|].
  apply H. reflexivity.
Defined.



Lemma cdi_ignores_vencimento_witness :
  let v := getMoneyValues
             (formulario "cdi" "12" "1.000,00" "100,00" "12" "não" "ano") in
  calculate servico (com_vencimento v "meses") st0
  = calculate servico (com_vencimento v "ano") st0.
Proof.
  apply (cdi_ignores_vencimento servico
           (getMoneyValues
              (formulario "cdi" "12" "1.000,00" "100,00" "12" "não" "ano"))
           st0 "meses" "ano"); discriminate.
Defined.

Lemma ipca_no_loss_witness :
  let v := getMoneyValues
             (formulario "ipca+" "24" "1.000,00" "100,00" "6" "não" "ano") in
  exists g i m : Q,
    projecao servico v = ([], inl (Fin g, Fin i))
    /\ result (calculate servico v st0).1
       = Some {| montanteBruto := Fin g; montanteLiquido := Fin m |}
    /\ i <= m /\ m <= g.
Proof.
  intros v.
  assert (Hp : exists g i, projecao servico v = ([], inl (Fin g, Fin i)))
    by (eexists _, _; vm_compute; reflexivity).
  destruct Hp as (g & i & Hp).
  assert (Hr : exists m,
             result (calculate servico v st0).1
             = Some {| montanteBruto := Fin g; montanteLiquido := Fin m |}).
  { rewrite calculate_conclui, Hp. unfold conclui. cbn [fst result].
    rewrite liquido_de_Fin. by eexists. }
  destruct Hr as (m & Hr). exists g, i, m.
  split; [exact Hp|]. split; [exact Hr|].
  apply (ipca_no_loss servico v st0
           [previsao "IPCA" 20 2026 4.5; previsao "IPCA" 20 2027 4]
           1000 100 6 [] g i m).
  - reflexivity.
  - reflexivity.
  - discriminate.
  - intros it [->|[->|[]%elem_of_nil]%elem_of_cons]%elem_of_cons;
      eexists; (split; [reflexivity|discriminate]).
  - reflexivity.
  - discriminate.
  - reflexivity.
  - discriminate.
  - reflexivity.
  - discriminate.
  - exact Hp.
  - exact Hr.
Defined.

Lemma formatMoney_accepted_witness :
  exists out,
    formatMoney (chars "R$ 1234567") = Some out
    /\ aporteInicial_field (string_of_list_ascii out)
       = Valid (fin (inject_Z 1234567 / 100))
    /\ (aporteMensal_field (string_of_list_ascii out)
        = Valid (fin (inject_Z 1234567 / 100)) <-> (0 < 1234567)%Z).
Proof.
  apply (formatMoney_accepted (chars "R$ 1234567"));
    [vm_compute; discriminate|vm_compute; reflexivity].
Defined.

Lemma formatPeriodo_accepted_witness :
  digits (chars "12")
  /\ formatPeriodo (chars "12") = chars "12"
  /\ periodo_field "12" = Valid (of_Z 12).
Proof.
  apply (formatPeriodo_accepted (chars "12 meses")). reflexivity.
Defined.

Lemma formatMoney_stable_witness :
  formatMoney (chars "12.345,67") = Some (chars "12.345,67").
Proof.
  apply (formatMoney_stable (chars "1234567") (chars "12.345,67"));
    vm_compute; reflexivity.
Defined.
End HelperSamples.
